(** * Extrusion anomaly monitor: detection-and-diagnosis core

    A shallow embedding of the computational core of
    [extrusion-anomaly-v2.jsx]: the parameter registry, the fault mode
    library, [computeContributions], [computeRBC], [diagnoseFault],
    [generatePoint] and the stream controller ([tick], [injectFault],
    [reset]) of the [ExtrusionAnomalyMonitor] component, with the
    arithmetic behind what the panels show: the latest snapshot and the
    alarm rate, the gauge of [ParamCard], the bars of
    [ContributionPanel] and the signature comparison of
    [FaultDiagnosisPanel].

    Modelling conventions.
    - A JavaScript number is an exact rational ([Q]) or [NaN]; binary
      floating-point rounding is not modelled.  Two rationals that are
      equal as numbers ([==]) may differ as fractions; every stored figure
      passes through [toFixed], which returns a reduced fraction, so
      stored figures are compared with [=].
    - [parseFloat (x.toFixed k)] is rounding to [k] decimals, half away
      from zero, as ECMAScript's [Number.prototype.toFixed] prescribes.
    - [Math.random] is an oracle [rnd : nat -> Q] read at a cursor that
      the controller state carries; [Math.sqrt] is a parameter of the
      diagnosis engine.
    - [Array.prototype.sort] is a stable sort.
    - Presentation-only fields (colours, mechanism text, action lists,
      citations) are left out of the records. *)

From Stdlib Require Import QArith Qround Qabs Qminmax ZArith List Bool String.
From Stdlib Require Import Lia Lqa Permutation Sorted.
Import ListNotations.

Local Open Scope Q_scope.

(* ------------------------------------------------------------------ *)
(** ** JavaScript numbers *)

Module JsNum.

Inductive num : Type :=
| Fin (q : Q)
| NaN.

Definition lift2 (f : Q -> Q -> Q) (a b : num) : num :=
  match a, b with
  | Fin x, Fin y => Fin (f x y)
  | _, _ => NaN
  end.

Definition add : num -> num -> num := lift2 Qplus.
Definition sub : num -> num -> num := lift2 Qminus.
Definition mul : num -> num -> num := lift2 Qmult.

(** Every division of the embedded code has a non-zero divisor (a
    registry [std], or a total guarded by [|| 1]); a zero divisor, which
    JavaScript answers with an infinity or NaN, is read as [NaN]. *)
Definition div (a b : num) : num :=
  match a, b with
  | Fin x, Fin y => if Qeq_bool y 0 then NaN else Fin (x / y)
  | _, _ => NaN
  end.

Definition Qltb (x y : Q) : bool := negb (Qle_bool y x).

(** [a > b]: false as soon as one side is NaN. *)
Definition gtb (a b : num) : bool :=
  match a, b with
  | Fin x, Fin y => Qltb y x
  | _, _ => false
  end.

(** Truthiness of a number: [0] and [NaN] are falsy. *)
Definition truthy (a : num) : bool :=
  match a with
  | Fin x => negb (Qeq_bool x 0)
  | NaN => false
  end.

(** [a || d] *)
Definition or_else (a d : num) : num := if truthy a then a else d.

(** [ToNumber] of a property that may be absent: [undefined] gives NaN. *)
Definition of_prop (o : option Q) : num :=
  match o with
  | Some q => Fin q
  | None => NaN
  end.

(** [o || 0] for a property that may be absent or NaN: always finite. *)
Definition or0 (o : option num) : Q :=
  match o with
  | Some (Fin q) => q
  | _ => 0
  end.

Fixpoint pow10 (k : nat) : positive :=
  match k with
  | O => 1%positive
  | S k' => (10 * pow10 k')%positive
  end.

(** The value of the decimal string [q.toFixed k]: with
    [x = |q|], the integer [n] for which [n / 10^k - x] is closest to
    zero, the larger one on a tie, carries the sign of [q].  From
    [10^21] on, [toFixed] prints the number itself. *)
Definition toFixed (k : nat) (q : Q) : Q :=
  let x := Qabs q in
  if Qle_bool (inject_Z (10 ^ 21)) x then Qred q
  else
    let n := Qfloor (x * inject_Z (Zpos (pow10 k)) + (1 # 2)) in
    Qred ((if Qltb q 0 then (- n)%Z else n) # pow10 k).

(** [parseFloat (a.toFixed k)]; [NaN.toFixed k] is the string ["NaN"]. *)
Definition fixed (k : nat) (a : num) : num :=
  match a with
  | Fin q => Fin (toFixed k q)
  | NaN => NaN
  end.

End JsNum.
Import JsNum.

(* ------------------------------------------------------------------ *)
(** ** Process parameter configuration *)

Inductive key : Type :=
| barrel_temp | screw_speed | melt_pressure
| line_speed | die_pressure | wall_thickness.

Definition key_eqb (a b : key) : bool :=
  match a, b with
  | barrel_temp, barrel_temp | screw_speed, screw_speed
  | melt_pressure, melt_pressure | line_speed, line_speed
  | die_pressure, die_pressure | wall_thickness, wall_thickness => true
  | _, _ => false
  end.

Record param_cfg : Type := mkParam {
  label : string;
  unit : string;
  mean : Q;
  std : Q;
  ucl : Q;
  lcl : Q;
  short : string
}.

Local Open Scope string_scope.
Local Open Scope list_scope.

Definition PARAMS (k : key) : param_cfg :=
  match k with
  | barrel_temp    => mkParam "Barrel Temp"    "°C"      200 3    209  191  "BT"
  | screw_speed    => mkParam "Screw Speed"    "RPM"   85  2    91   79   "SS"
  | melt_pressure  => mkParam "Melt Pressure"  "bar"   280 8    304  256  "MP"
  | line_speed     => mkParam "Line Speed"     "m/min" 45  1.5  49.5 40.5 "LS"
  | die_pressure   => mkParam "Die Pressure"   "bar"   180 5    195  165  "DP"
  | wall_thickness => mkParam "Wall Thickness" "mm"    1.2 0.05 1.35 1.05 "WT"
  end.

Definition PARAM_KEYS : list key :=
  [barrel_temp; screw_speed; melt_pressure;
   line_speed; die_pressure; wall_thickness].

Definition T2_UCL : Q := 12.6.

(* ------------------------------------------------------------------ *)
(** ** Fault mode library *)

Inductive severity : Type := LOW | MEDIUM | HIGH | CRITICAL.

Record fault : Type := mkFault {
  f_name : string;
  f_param : key;
  f_delta : Q;
  f_duration : Z;
  f_severity : severity;
  f_signature : list (key * Q)
}.

Definition die_wear : fault :=
  mkFault "Die Wear" die_pressure (-28) 10 HIGH
    [(die_pressure, 0.65); (melt_pressure, 0.18); (wall_thickness, 0.10);
     (line_speed, 0.04); (barrel_temp, 0.02); (screw_speed, 0.01)].

Definition screw_slip : fault :=
  mkFault "Screw Slip" screw_speed (-12) 6 MEDIUM
    [(screw_speed, 0.60); (melt_pressure, 0.20); (line_speed, 0.10);
     (barrel_temp, 0.06); (die_pressure, 0.03); (wall_thickness, 0.01)].

Definition temp_spike : fault :=
  mkFault "Temp Spike" barrel_temp 22 5 HIGH
    [(barrel_temp, 0.70); (melt_pressure, 0.15); (screw_speed, 0.08);
     (die_pressure, 0.04); (line_speed, 0.02); (wall_thickness, 0.01)].

Definition pressure_surge : fault :=
  mkFault "Pressure Surge" melt_pressure 45 7 HIGH
    [(melt_pressure, 0.62); (barrel_temp, 0.14); (die_pressure, 0.12);
     (screw_speed, 0.07); (wall_thickness, 0.03); (line_speed, 0.02)].

Definition line_slowdown : fault :=
  mkFault "Line Slowdown" line_speed (-8) 8 MEDIUM
    [(line_speed, 0.58); (wall_thickness, 0.22); (die_pressure, 0.10);
     (melt_pressure, 0.06); (screw_speed, 0.03); (barrel_temp, 0.01)].

Definition thin_wall : fault :=
  mkFault "Thin Wall" wall_thickness (-0.18) 6 CRITICAL
    [(wall_thickness, 0.68); (die_pressure, 0.14); (line_speed, 0.10);
     (melt_pressure, 0.05); (screw_speed, 0.02); (barrel_temp, 0.01)].

Definition FAULT_MODES : list fault :=
  [die_wear; screw_slip; temp_spike; pressure_surge; line_slowdown; thin_wall].

(** [obj[k]] on an object literal given as its list of entries. *)
Fixpoint get {A : Type} (obj : list (key * A)) (k : key) : option A :=
  match obj with
  | [] => None
  | (k', v) :: rest => if key_eqb k' k then Some v else get rest k
  end.

(* ------------------------------------------------------------------ *)
(** ** Snapshots *)

(** The object built by [generatePoint].  [pt_val k] is [point[k]],
    [None] when the property is absent; an absent flag is falsy and reads
    as [false]. *)
Record point : Type := mkPoint {
  pt_t : Z;
  pt_val : key -> option Q;
  pt_anomaly : key -> bool;
  pt_t2 : num;
  pt_t2_anomaly : bool
}.

(** [(point[k] - PARAMS[k].mean) / PARAMS[k].std] *)
Definition zscore (p : point) (k : key) : num :=
  div (sub (of_prop (pt_val p k)) (Fin (mean (PARAMS k))))
      (Fin (std (PARAMS k))).

(* ------------------------------------------------------------------ *)
(** ** Array.prototype.sort *)

Section Sort.
Context {A : Type}.
(** [cmp a b > 0] asks for [b] before [a]; a zero or NaN result keeps
    the two in their order. *)
Variable cmp : A -> A -> num.

Fixpoint insert (x : A) (l : list A) : list A :=
  match l with
  | [] => [x]
  | y :: l' => if gtb (cmp x y) (Fin 0) then y :: insert x l'
               else x :: l
  end.

Fixpoint sort (l : list A) : list A :=
  match l with
  | [] => []
  | x :: l' => insert x (sort l')
  end.
End Sort.

(* ------------------------------------------------------------------ *)
(** ** T2 contribution computation *)

Inductive direction : Type := DirHigh | DirLow.

Record contribution : Type := mkContribution {
  c_key : key;
  c_label : string;
  c_fullLabel : string;
  c_value : num;
  c_z : num;
  c_direction : direction
}.

Definition contribution_of (p : point) (k : key) : contribution :=
  let cfg := PARAMS k in
  let z := zscore p k in
  let contrib := mul z z in
  mkContribution k (short cfg) (label cfg)
    (fixed 4 contrib) (fixed 3 z)
    (if gtb z (Fin 0) then DirHigh else DirLow).

Definition computeContributions (p : point) : list contribution :=
  sort (fun a b => sub (c_value b) (c_value a))
       (map (contribution_of p) PARAM_KEYS).

(** The running sum [contributions.reduce((s, c) => s + c.value, 0)]. *)
Definition sum_values (contributions : list contribution) : num :=
  fold_left (fun s c => add s (c_value c)) contributions (Fin 0).

(* ------------------------------------------------------------------ *)
(** ** Reconstruction-based contribution *)

Record rbc_entry : Type := mkRbc {
  r_key : key;
  r_label : string;
  r_fullLabel : string;
  r_rbc : num
}.

Definition t2_full (p : point) : num :=
  fold_left (fun sum k => let z := zscore p k in add sum (mul z z))
            PARAM_KEYS (Fin 0).

Definition t2_without (p : point) (k0 : key) : num :=
  fold_left (fun sum k =>
               if key_eqb k k0 then sum
               else let z := zscore p k in add sum (mul z z))
            PARAM_KEYS (Fin 0).

Definition rbc_of (p : point) (k0 : key) : rbc_entry :=
  let rbc := sub (t2_full p) (t2_without p k0) in
  mkRbc k0 (short (PARAMS k0)) (label (PARAMS k0)) (fixed 4 rbc).

Definition computeRBC (p : point) : list rbc_entry :=
  sort (fun a b => sub (r_rbc b) (r_rbc a)) (map (rbc_of p) PARAM_KEYS).

(* ------------------------------------------------------------------ *)
(** ** Fault diagnosis engine *)

Record diagnosis : Type := mkDiagnosis {
  d_fault : fault;
  confidence : Q
}.

(** [obj[k] = v] on an object seen as a finite function. *)
Definition set {A : Type} (obj : key -> A) (k : key) (v : A) : key -> A :=
  fun k' => if key_eqb k' k then v else obj k'.

Section Diagnosis.
(** [Math.sqrt].  It is only called on the two squared norms, after
    both were found non-zero. *)
Variable sqrt : Q -> Q.

Definition total_of (contributions : list contribution) : num :=
  or_else (sum_values contributions) (Fin 1).

Definition norm_of (contributions : list contribution) : key -> option num :=
  let total := total_of contributions in
  fold_left (fun norm c => set norm (c_key c) (Some (div (c_value c) total)))
            contributions (fun _ => None).

(** The three accumulators [dot], [magFault], [magObs]. *)
Definition accumulate (f : fault) (norm : key -> option num)
           (acc : Q * Q * Q) (k : key) : Q * Q * Q :=
  let '(dot, magFault, magObs) := acc in
  let fo := or0 (option_map Fin (get (f_signature f) k)) in
  let ob := or0 (norm k) in
  (dot + fo * ob, magFault + fo * fo, magObs + ob * ob).

Definition score_of (norm : key -> option num) (f : fault) : diagnosis :=
  let '(dot, magFault, magObs) :=
    fold_left (accumulate f norm) PARAM_KEYS (0, 0, 0) in
  let similarity :=
    if truthy (Fin magFault) && truthy (Fin magObs)
    then dot / (sqrt magFault * sqrt magObs)
    else 0 in
  mkDiagnosis f (toFixed 1 (similarity * 100)).

Definition diagnoseFault (contributions : list contribution)
  : list diagnosis :=
  let norm := norm_of contributions in
  let scores := map (score_of norm) FAULT_MODES in
  sort (fun a b => Fin (confidence b - confidence a)) scores.
End Diagnosis.

(* ------------------------------------------------------------------ *)
(** ** Data generator *)

(** [val > cfg.ucl || val < cfg.lcl] *)
Definition out_of_control (cfg : param_cfg) (val : Q) : bool :=
  Qltb (ucl cfg) val || Qltb val (lcl cfg).

Section Generator.
(** [Math.random]: the [n]-th call returns [rnd n]. *)
Variable rnd : nat -> Q.

(** The value [val] drawn for [k] when the cursor is at [pos], before
    rounding, and the cursor after the draw. *)
Definition raw_val (activeFault : option fault) (k : key) (pos : nat)
  : Q * nat :=
  let cfg := PARAMS k in
  let val := mean cfg + (rnd pos - 0.5) * 2 * std cfg in
  let pos := S pos in
  match activeFault with
  | Some f =>
      if key_eqb (f_param f) k
      then (val + f_delta f * (0.75 + rnd pos * 0.5), S pos)
      else (val, pos)
  | None => (val, pos)
  end.

Record gen_acc : Type := mkAcc {
  g_val : key -> option Q;
  g_flag : key -> bool;
  g_pos : nat
}.

Definition gen_step (activeFault : option fault) (acc : gen_acc) (k : key)
  : gen_acc :=
  let '(val, pos) := raw_val activeFault k (g_pos acc) in
  mkAcc (set (g_val acc) k (Some (toFixed 3 val)))
        (set (g_flag acc) k (out_of_control (PARAMS k) val))
        pos.

Definition generatePoint (t : Z) (activeFault : option fault) (pos : nat)
  : point * nat :=
  let acc := fold_left (gen_step activeFault) PARAM_KEYS
               (mkAcc (fun _ => None) (fun _ => false) pos) in
  let point0 := mkPoint t (g_val acc) (g_flag acc) NaN false in
  let t2 := t2_full point0 in
  (mkPoint t (g_val acc) (g_flag acc) (fixed 3 t2) (gtb t2 (Fin T2_UCL)),
   g_pos acc).
End Generator.

(* ------------------------------------------------------------------ *)
(** ** Stream controller *)

(** One line of the alarm log.  [a_val] is the figure that the text
    shows, already rounded ([NaN] when the text is not a figure), and
    [a_unit] the unit that follows it.  [a_id] is the pair behind the
    identifier [`${t}-${k}`], with [None] for the T2 line. *)
Record alarm : Type := mkAlarm {
  a_t : Z;
  a_param : string;
  a_val : num;
  a_unit : string;
  a_id : Z * option key
}.

(** [fmt(v, unit)]: three decimals for millimetres, one otherwise. *)
Definition fmt (v : option Q) (u : string) : num * string :=
  (match v with
   | Some q => Fin (toFixed (if String.eqb u "mm" then 3 else 1) q)
   | None => NaN
   end, u).

Definition param_alarm (t : Z) (pt : point) (k : key) : alarm :=
  let '(v, u) := fmt (pt_val pt k) (unit (PARAMS k)) in
  mkAlarm t (label (PARAMS k)) v u (t, Some k).

Definition t2_alarm (t : Z) (pt : point) : alarm :=
  mkAlarm t "T² Multivariate" (fixed 2 (pt_t2 pt)) "" (t, None).

Definition newAlarms (t : Z) (pt : point) : list alarm :=
  let pushed :=
    fold_left (fun acc k =>
                 if pt_anomaly pt k then acc ++ [param_alarm t pt k] else acc)
              PARAM_KEYS [] in
  if pt_t2_anomaly pt then pushed ++ [t2_alarm t pt] else pushed.

(** [l.slice(-n)] *)
Definition slice_last {A : Type} (n : nat) (l : list A) : list A :=
  skipn (List.length l - n)%nat l.

(** The React state and the refs of [ExtrusionAnomalyMonitor], with the
    cursor of the random oracle. *)
Record state : Type := mkState {
  data : list point;
  running : bool;
  activeFault : option fault;
  faultCountdown : Z;
  alarmLog : list alarm;
  tickCount : Z;
  tRef : Z;
  faultRef : option fault;
  faultCdRef : Z;
  rngPos : nat
}.

Definition initial : state :=
  mkState [] false None 0 [] 0 0 None 0 0.

Local Open Scope Z_scope.

(** First part of [tick]: the counter and the fault countdown. *)
Definition tick_countdown (s : state) : state :=
  let t := tRef s + 1 in
  let cd := faultCdRef s in
  if 1 <? cd then
    mkState (data s) (running s) (activeFault s) (cd - 1) (alarmLog s)
            (tickCount s) t (faultRef s) (cd - 1) (rngPos s)
  else if cd =? 1 then
    mkState (data s) (running s) None 0 (alarmLog s)
            (tickCount s) t None 0 (rngPos s)
  else
    mkState (data s) (running s) (activeFault s) (faultCountdown s)
            (alarmLog s) (tickCount s) t (faultRef s) cd (rngPos s).

(** Last part of [tick]: the snapshot [pt] goes to the history and its
    alarms to the log. *)
Definition tick_record (pt : point) (s : state) : state :=
  let t := tRef s in
  let alarms := newAlarms t pt in
  mkState (slice_last 120 (data s ++ [pt])) (running s) (activeFault s)
          (faultCountdown s)
          (match alarms with
           | [] => alarmLog s
           | _ => firstn 80 (alarms ++ alarmLog s)
           end)
          t t (faultRef s) (faultCdRef s) (rngPos s).

Section Controller.
Variable rnd : nat -> Q.

(** The snapshot that [tick] generates in state [s]. *)
Definition tick_point (s : state) : point * nat :=
  let s1 := tick_countdown s in
  generatePoint rnd (tRef s1) (faultRef s1) (rngPos s1).

Definition tick (s : state) : state :=
  let s1 := tick_countdown s in
  let '(pt, pos) := generatePoint rnd (tRef s1) (faultRef s1) (rngPos s1) in
  tick_record pt
    (mkState (data s1) (running s1) (activeFault s1) (faultCountdown s1)
             (alarmLog s1) (tickCount s1) (tRef s1) (faultRef s1)
             (faultCdRef s1) pos).

Definition injectFault (f : fault) (s : state) : state :=
  mkState (data s) (running s) (Some f) (f_duration f) (alarmLog s)
          (tickCount s) (tRef s) (Some f) (f_duration f) (rngPos s).

Definition reset (s : state) : state :=
  mkState [] false None 0 [] 0 0 None 0 (rngPos s).

(** What reaches the component: the START/STOP button, the interval
    timer (armed only while running), a fault button (enabled only
    while running) and RESET. *)
Inductive event : Type :=
| Toggle
| Timer
| Inject (f : fault)
| Reset.

Definition step (s : state) (e : event) : state :=
  match e with
  | Toggle =>
      mkState (data s) (negb (running s)) (activeFault s)
              (faultCountdown s) (alarmLog s) (tickCount s) (tRef s)
              (faultRef s) (faultCdRef s) (rngPos s)
  | Timer => if running s then tick s else s
  | Inject f => if running s then injectFault f s else s
  | Reset => reset s
  end.

Definition run (s : state) (es : list event) : state :=
  fold_left step es s.

(** The snapshots accepted since the last reset, in arrival order. *)
Fixpoint accepted (s : state) (es : list event) (acc : list point)
  : list point :=
  match es with
  | [] => acc
  | e :: es' =>
      accepted (step s e) es'
        (match e with
         | Timer => if running s then acc ++ [fst (tick_point s)] else acc
         | Reset => []
         | _ => acc
         end)
  end.

(** [n] timer ticks in a row. *)
Definition ticks (n : nat) (s : state) : state :=
  Nat.iter n tick s.
End Controller.

Local Close Scope Z_scope.

(* ------------------------------------------------------------------ *)
(** ** Vocabulary of the statements *)

(** A snapshot in the sense of the data model: a reading for every
    registered parameter. *)
Definition complete (p : point) : Prop :=
  forall k, pt_val p k <> None.

(** The standardized deviation of a reading that is present, and its
    square. *)
Definition zq (p : point) (k : key) : Q :=
  (match pt_val p k with Some q => q | None => 0 end - mean (PARAMS k))
  / std (PARAMS k).

Definition sq (p : point) (k : key) : Q := zq p k * zq p k.

(** The joint statistic before rounding. *)
Definition t2q (p : point) : Q :=
  fold_left (fun s k => s + sq p k) PARAM_KEYS 0.

(** What the two decompositions say per parameter, in the order they
    come out. *)
Definition contribution_pairs (p : point) : list (key * num) :=
  map (fun c => (c_key c, c_value c)) (computeContributions p).

Definition rbc_pairs (p : point) : list (key * num) :=
  map (fun r => (r_key r, r_rbc r)) (computeRBC p).

(** Position of a key in [PARAM_KEYS]. *)
Definition key_index (k : key) : nat :=
  match k with
  | barrel_temp => 0 | screw_speed => 1 | melt_pressure => 2
  | line_speed => 3 | die_pressure => 4 | wall_thickness => 5
  end.

(** Where the random cursor stands when [generatePoint], entered at
    [pos], reaches key [k]: one draw per earlier key, and one more when
    the driver of the active fault is among them. *)
Definition cursor (activeFault : option fault) (pos : nat) (k : key) : nat :=
  (key_index k
   + match activeFault with
     | Some f => if Nat.ltb (key_index (f_param f)) (key_index k) then 1 else 0
     | None => 0
     end
   + pos)%nat.

(** The value drawn for [k], before it is rounded and stored. *)
Definition raw_reading (rnd : nat -> Q) (activeFault : option fault)
           (pos : nat) (k : key) : Q :=
  fst (raw_val rnd activeFault k (cursor activeFault pos k)).

(** A snapshot off its nominal point: barrel temperature 203 and melt
    pressure 292, the other readings at their mean. *)
Definition sample : point :=
  mkPoint 1
    (fun k => match k with
              | barrel_temp => Some 203
              | melt_pressure => Some 292
              | _ => Some (mean (PARAMS k))
              end)
    (fun _ => false) (Fin 3.25) false.

(** Random draws that put the barrel temperature at 200.06 and leave
    every other reading at its mean. *)
Definition rnd_barrel (n : nat) : Q :=
  match n with
  | O => 0.51
  | _ => 0.5
  end.

(** The finite value of a contribution, and the sum of a list of
    rationals. *)
Definition valq (c : contribution) : Q :=
  match c_value c with Fin q => q | NaN => 0 end.

Definition qsum (l : list Q) : Q := fold_right Qplus 0 l.

(** A contribution value that is the number zero. *)
Definition zero_value (v : num) : bool :=
  match v with
  | Fin q => Qeq_bool q 0
  | NaN => false
  end.

Definition all_zero (contributions : list contribution) : bool :=
  forallb (fun c => zero_value (c_value c)) contributions.

(** A ranking reduced to its signatures and scores. *)
Definition ranking (ds : list diagnosis) : list (fault * Q) :=
  map (fun d => (d_fault d, confidence d)) ds.

(** The snapshot with every reading at its mean. *)
Definition nominal : point :=
  mkPoint 0 (fun k => Some (mean (PARAMS k))) (fun _ => false) (Fin 0) false.

(** A stand-in for [Math.sqrt] to run the diagnosis on examples: the
    integer square root of the integer part. *)
Definition sqrt_floor (q : Q) : Q := inject_Z (Z.sqrt (Qfloor q)).

(** The fault that each of the next [n] ticks hands to [generatePoint],
    and the snapshots they produce. *)
Fixpoint faults_used (rnd : nat -> Q) (n : nat) (s : state)
  : list (option fault) :=
  match n with
  | O => []
  | S n' => faultRef (tick_countdown s) :: faults_used rnd n' (tick rnd s)
  end.

Fixpoint snapshots (rnd : nat -> Q) (n : nat) (s : state) : list point :=
  match n with
  | O => []
  | S n' => fst (tick_point rnd s) :: snapshots rnd n' (tick rnd s)
  end.

(** Every random draw in the middle of its range: no noise, and a fault
    bias of exactly [delta]. *)
Definition rnd_half (n : nat) : Q := 0.5.


(** The claim under test for the alarm log, in the spec's words: an
    event for a parameter only when it is out of control now and was not
    on the previous accepted snapshot. *)
Definition newly_out_of_control (prev : option point) (pt : point) (k : key)
  : bool :=
  pt_anomaly pt k
  && negb (match prev with Some p => pt_anomaly p k | None => false end).

(** A snapshot without a barrel temperature, the other readings at their
    mean. *)
Definition partial : point :=
  mkPoint 1
    (fun k => match k with
              | barrel_temp => None
              | _ => Some (mean (PARAMS k))
              end)
    (fun _ => false) NaN false.

(** The controller, started, at the moment its first tick has a snapshot
    in hand. *)
Definition armed : state :=
  tick_countdown (step rnd_half initial Toggle).

(** Random draws that, under Line Slowdown, put the line speed at
    40.4996, just below its lower limit of 40.5. *)
Definition rnd_line_edge (n : nat) : Q :=
  match n with
  | 3%nat => 7499 # 7500
  | 4%nat => 0
  | _ => 0.5
  end.

(** Random draws that, under Thin Wall, put the wall thickness exactly
    on its lower limit of 1.05. *)
Definition rnd_lcl (n : nat) : Q :=
  match n with
  | 6%nat => 1 # 6
  | _ => 0.5
  end.

(** The range of [Math.random]. *)
Definition unit_range (rnd : nat -> Q) : Prop :=
  forall n, 0 <= rnd n < 1.

(** [ts] is the run of consecutive integers that starts at [a]. *)
Fixpoint consecutive_from (a : Z) (ts : list Z) : Prop :=
  match ts with
  | [] => True
  | x :: rest => x = a /\ consecutive_from (a + 1) rest
  end.

(** What every reachable controller state satisfies. *)
Record controller_inv (s : state) : Prop := mkInv {
  inv_tick : tickCount s = tRef s;
  inv_fault : activeFault s = faultRef s;
  inv_countdown : faultCountdown s = faultCdRef s;
  inv_length : Z.of_nat (List.length (data s)) = Z.min 120 (tRef s);
  inv_indices :
    consecutive_from (tRef s - Z.of_nat (List.length (data s)) + 1)
                     (map pt_t (data s));
  inv_log_length : (List.length (alarmLog s) <= 80)%nat;
  inv_log_range : Forall (fun a => (1 <= a_t a <= tRef s)%Z) (alarmLog s);
  inv_log_order : StronglySorted (fun a b => (a_t b <= a_t a)%Z) (alarmLog s)
}.

(** ** Values derived for display *)

(** [data[data.length - 1]]: [undefined] on the empty history. *)
Definition last_of (data : list point) : option point :=
  match data with
  | [] => None
  | _ => nth_error data (List.length data - 1)
  end.

Definition latest (s : state) : option point := last_of (data s).

(** [latest?.t2 ?? 0] and [latest?.t2_anomaly ?? false] *)
Definition latestT2 (s : state) : num :=
  match latest s with
  | Some p => pt_t2 p
  | None => Fin 0
  end.

Definition isAnomalous (s : state) : bool :=
  match latest s with
  | Some p => pt_t2_anomaly p
  | None => false
  end.

Definition totalAlarms (s : state) : nat := List.length (alarmLog s).

(** The figure behind the string [alarmRate]: the share of snapshots in
    the window whose joint statistic is out of control, in percent with
    one decimal, and ["0.0"] on the empty window. *)
Definition alarmRate (s : state) : Q :=
  match data s with
  | [] => 0
  | _ =>
      toFixed 1
        (inject_Z (Z.of_nat (List.length (filter pt_t2_anomaly (data s))))
         / inject_Z (Z.of_nat (List.length (data s))) * 100)
  end.

(** An event list that injects catalog faults only, as the fault buttons
    do. *)
Definition injects_catalog (es : list event) : Prop :=
  forall f, In (Inject f) es -> In f FAULT_MODES.

(** The countdown against the active fault. *)
Definition countdown_ok (s : state) : Prop :=
  match faultRef s with
  | None => faultCdRef s = 0%Z
  | Some f => In f FAULT_MODES /\ (1 <= faultCdRef s <= f_duration f)%Z
  end.

(** ** Presentation arithmetic *)

(** [ParamCard]: the reading of the latest snapshot, if any, and the
    position of the gauge in percent of the span between the limits.  A
    reading that is absent or zero is falsy and puts the gauge at 50. *)
Definition card_val (data : list point) (paramKey : key) : option Q :=
  match last_of data with
  | Some p => pt_val p paramKey
  | None => None
  end.

Definition card_pct (data : list point) (paramKey : key) : Q :=
  let cfg := PARAMS paramKey in
  match card_val data paramKey with
  | Some val =>
      if Qeq_bool val 0 then 50
      else Qmin 100 (Qmax 0 ((val - lcl cfg) / (ucl cfg - lcl cfg) * 100))
  | None => 50
  end.

(** [Math.max] of two numbers: NaN as soon as one of them is. *)
Definition nmax (a b : num) : num :=
  match a, b with
  | Fin x, Fin y => Fin (Qmax x y)
  | _, _ => NaN
  end.

(** [ContributionPanel]: [Math.max(...contributions.map(c => c.value), 1)]
    and the width of a bar in percent. *)
Definition maxVal (contributions : list contribution) : num :=
  fold_right (fun c m => nmax (c_value c) m) (Fin 1) contributions.

Definition bar_width (contributions : list contribution) (c : contribution)
  : num :=
  mul (div (c_value c) (maxVal contributions)) (Fin 100).

(** [FaultDiagnosisPanel]: the expected and the observed share of a
    parameter in percent, as the signature comparison shows them before
    it rounds them to whole percents. *)
Definition expected (d : fault) (k : key) : Q :=
  or0 (option_map Fin (get (f_signature d) k)) * 100.

Definition observed (contributions : list contribution) (k : key) : Q :=
  let total := total_of contributions in
  match find (fun c => key_eqb (c_key c) k) contributions with
  | Some c =>
      match mul (div (c_value c) total) (Fin 100) with
      | Fin q => q
      | NaN => 0
      end
  | None => 0
  end.

(** The contributions with every value multiplied by [a]. *)
Definition scale_values (a : Q) (contributions : list contribution)
  : list contribution :=
  map (fun c => mkContribution (c_key c) (c_label c) (c_fullLabel c)
                  (mul (Fin a) (c_value c)) (c_z c) (c_direction c))
      contributions.

(** Contributions as [computeContributions] produces them on a complete
    snapshot: finite and not negative. *)
Definition nonneg_values (contributions : list contribution) : Prop :=
  forall c, In c contributions -> exists q, c_value c = Fin q /\ 0 <= q.

(** A square root that gives equal results on equal numbers. *)
Definition respects_Qeq (sqrt : Q -> Q) : Prop :=
  forall x y, x == y -> sqrt x == sqrt y.

(** An event list without fault injection. *)
Definition no_injection (es : list event) : Prop :=
  forall f, ~ In (Inject f) es.

(** A controller that has seen no fault and no excursion. *)
Record quiet (s : state) : Prop := mkQuiet {
  quiet_fault : faultRef s = None;
  quiet_countdown : faultCdRef s = 0%Z;
  quiet_log : alarmLog s = [];
  quiet_data : Forall (fun p => pt_t2_anomaly p = false) (data s)
}.

(** A snapshot the panels can work on: every reading present, a joint
    statistic that is a number and not negative, and contributions that
    sum to a number. *)
Definition well_formed (p : point) : Prop :=
  complete p /\
  (exists q, pt_t2 p = Fin q /\ 0 <= q) /\
  (exists s, sum_values (computeContributions p) = Fin s /\ 0 <= s).

(* ------------------------------------------------------------------ *)
(** * Properties *)

(** ** Keys *)

Lemma key_eqb_eq (a b : key) : key_eqb a b = true <-> a = b.
Proof. destruct a, b; simpl; split; congruence. Qed.

Lemma key_eqb_refl (a : key) : key_eqb a a = true.
Proof. now destruct a. Qed.

(** ** Rounding *)

Local Open Scope Q_scope.

Lemma Qltb_lt x y : Qltb x y = true <-> x < y.
Proof.
  unfold Qltb. rewrite negb_true_iff. split; intro H.
  - apply Qnot_le_lt. intro L. apply Qle_bool_iff in L. congruence.
  - destruct (Qle_bool y x) eqn:E; [|reflexivity].
    apply Qle_bool_iff in E. apply Qle_not_lt in E. contradiction.
Qed.

Lemma Qltb_comp x x' y y' : x == x' -> y == y' -> Qltb x y = Qltb x' y'.
Proof. intros Hx Hy. unfold Qltb. now rewrite Hx, Hy. Qed.

Lemma toFixed_comp k x y : x == y -> toFixed k x = toFixed k y.
Proof.
  intro H. unfold toFixed.
  assert (Ha : Qabs x == Qabs y) by now rewrite H.
  rewrite (Qleb_comp _ _ (Qeq_refl _) _ _ Ha).
  destruct (Qle_bool _ (Qabs y)).
  - now apply Qred_complete.
  - rewrite (Qltb_comp x y 0 0 H (Qeq_refl 0)).
    assert (Hf : Qfloor (Qabs x * inject_Z (Z.pos (pow10 k)) + (1 # 2)) =
                 Qfloor (Qabs y * inject_Z (Z.pos (pow10 k)) + (1 # 2))).
    { apply Qfloor_comp. now rewrite Ha. }
    now rewrite Hf.
Qed.


Lemma Qdiv_le_mono (a b c : Q) : 0 < c -> a <= b -> a / c <= b / c.
Proof.
  intros Hc Hab. unfold Qdiv. apply Qmult_le_compat_r; [exact Hab|].
  apply Qlt_le_weak, Qinv_lt_0_compat, Hc.
Qed.

Lemma round_bound (y P n : Q) :
  0 < P -> n <= y * P + (1 # 2) -> y * P + (1 # 2) < n + 1 ->
  - ((1 # 2) / P) <= n / P - y <= (1 # 2) / P.
Proof.
  intros HP Hlo Hhi.
  assert (HP0 : ~ P == 0) by (intro E; rewrite E in HP; discriminate).
  assert (E1 : n / P - y == (n - y * P) / P) by (field; exact HP0).
  assert (E2 : - ((1 # 2) / P) == (- (1 # 2)) / P) by (field; exact HP0).
  rewrite E1, E2. split; apply Qdiv_le_mono; try exact HP; lra.
Qed.

Lemma toFixed_err k q :
  Qabs (toFixed k q - q) <= 1 # (2 * pow10 k).
Proof.
  unfold toFixed.
  destruct (Qle_bool _ (Qabs q)).
  - rewrite Qred_correct. setoid_replace (q - q) with 0 by ring.
    discriminate.
  - rewrite Qred_correct.
    set (P := pow10 k).
    set (n := Qfloor (Qabs q * inject_Z (Z.pos P) + (1 # 2))).
    pose proof (Qfloor_le (Qabs q * inject_Z (Z.pos P) + (1 # 2))) as Hlo.
    pose proof (Qlt_floor (Qabs q * inject_Z (Z.pos P) + (1 # 2))) as Hhi.
    fold n in Hlo, Hhi.
    rewrite inject_Z_plus in Hhi.
    assert (HP : 0 < inject_Z (Z.pos P)) by reflexivity.
    assert (Hh : 1 # (2 * P) == (1#2) / inject_Z (Z.pos P)).
    { unfold Qeq, Qdiv, Qmult, Qinv; simpl. lia. }
    apply Qabs_Qle_condition. rewrite Hh.
    pose proof (round_bound (Qabs q) _ _ HP Hlo Hhi) as [B1 B2].
    destruct (Qltb q 0) eqn:Hs.
    + apply Qltb_lt in Hs.
      assert (Hq : Qabs q == - q) by (apply Qabs_neg; lra).
      rewrite Hq in B1, B2.
      assert (E : (- n)%Z # P == - (inject_Z n / inject_Z (Z.pos P))).
      { rewrite (Qmake_Qdiv (- n) P), inject_Z_opp. field.
        intro E; rewrite E in HP; discriminate. }
      rewrite E. split; lra.
    + assert (Hs' : 0 <= q).
      { apply Qnot_lt_le. intro L. apply Qltb_lt in L. congruence. }
      assert (Hq : Qabs q == q) by (apply Qabs_pos; exact Hs').
      rewrite Hq in B1, B2.
      rewrite (Qmake_Qdiv n P). split; lra.
Qed.

(** ** Sorting *)

Section SortFacts.
Context {A B : Type}.

Lemma insert_map (f : A -> B) (cmpA : A -> A -> num) (cmpB : B -> B -> num) :
  (forall a b, cmpA a b = cmpB (f a) (f b)) ->
  forall x l, map f (insert cmpA x l) = insert cmpB (f x) (map f l).
Proof.
  intros Hc x l. induction l as [|y l IH]; simpl; [reflexivity|].
  rewrite <- Hc. destruct (gtb (cmpA x y) (Fin 0)); simpl;
    [now rewrite IH | reflexivity].
Qed.

Lemma sort_map (f : A -> B) (cmpA : A -> A -> num) (cmpB : B -> B -> num) :
  (forall a b, cmpA a b = cmpB (f a) (f b)) ->
  forall l, map f (sort cmpA l) = sort cmpB (map f l).
Proof.
  intros Hc l. induction l as [|x l IH]; simpl; [reflexivity|].
  now rewrite (insert_map f cmpA cmpB Hc), IH.
Qed.

Lemma insert_perm (cmp : A -> A -> num) x l :
  Permutation (insert cmp x l) (x :: l).
Proof.
  induction l as [|y l IH]; simpl; [apply Permutation_refl|].
  destruct (gtb (cmp x y) (Fin 0)); [|apply Permutation_refl].
  eapply perm_trans; [apply perm_skip, IH | apply perm_swap].
Qed.

Lemma sort_perm (cmp : A -> A -> num) l : Permutation (sort cmp l) l.
Proof.
  induction l as [|x l IH]; simpl; [apply perm_nil|].
  eapply perm_trans; [apply insert_perm | apply perm_skip, IH].
Qed.
End SortFacts.

(** Sorting by a finite score, highest first. *)
Section Descending.
Context {A : Type}.
Variable score : A -> Q.

Definition by_score (a b : A) : num := Fin (score b - score a).
Definition ge_score (a b : A) : Prop := score b <= score a.
Definition has_score (c : Q) (a : A) : bool := Qeq_bool (score a) c.

Lemma by_score_gtb a b :
  gtb (by_score a b) (Fin 0) = true <-> score a < score b.
Proof.
  unfold by_score; simpl. rewrite Qltb_lt. split; intro H; lra.
Qed.

Lemma insert_sorted x l :
  StronglySorted ge_score l -> StronglySorted ge_score (insert by_score x l).
Proof.
  induction 1 as [|y l Hs IH Hy]; cbn [insert].
  - constructor; constructor.
  - destruct (gtb (by_score x y) (Fin 0)) eqn:E.
    + apply by_score_gtb in E. constructor; [exact IH|].
      apply (Permutation_Forall (Permutation_sym (insert_perm by_score x l))).
      constructor; [|exact Hy]. unfold ge_score. lra.
    + assert (Hxy : score y <= score x).
      { apply Qnot_lt_le. intro L. apply by_score_gtb in L. congruence. }
      constructor; [constructor; assumption|].
      constructor; [exact Hxy|].
      eapply Forall_impl; [|exact Hy]. unfold ge_score. intros; lra.
Qed.

Lemma sort_sorted l : StronglySorted ge_score (sort by_score l).
Proof.
  induction l as [|x l IH]; simpl; [constructor | now apply insert_sorted].
Qed.

Lemma insert_stable c x l :
  filter (has_score c) (insert by_score x l) = filter (has_score c) (x :: l).
Proof.
  induction l as [|y l IH]; [reflexivity|].
  cbn [insert]. destruct (gtb (by_score x y) (Fin 0)) eqn:E; [|reflexivity].
  apply by_score_gtb in E.
  change (filter (has_score c) (y :: insert by_score x l))
    with (if has_score c y then y :: filter (has_score c) (insert by_score x l)
          else filter (has_score c) (insert by_score x l)).
  rewrite IH. simpl. unfold has_score.
  destruct (Qeq_bool (score y) c) eqn:Ey, (Qeq_bool (score x) c) eqn:Ex;
    try reflexivity.
  apply Qeq_bool_eq in Ey, Ex. lra.
Qed.

Lemma sort_stable c l :
  filter (has_score c) (sort by_score l) = filter (has_score c) l.
Proof.
  induction l as [|x l IH]; [reflexivity|].
  cbn [sort]. rewrite insert_stable. cbn [filter]. now rewrite IH.
Qed.

(** A list whose scores already descend is left as it is. *)
Lemma sort_id l : StronglySorted ge_score l -> sort by_score l = l.
Proof.
  induction 1 as [|x l Hs IH Hx]; [reflexivity|].
  cbn [sort]. rewrite IH. destruct l as [|y l]; [reflexivity|].
  cbn [insert]. destruct (gtb (by_score x y) (Fin 0)) eqn:E; [|reflexivity].
  apply by_score_gtb in E. inversion Hx as [|? ? Hxy _]; subst.
  unfold ge_score in Hxy. lra.
Qed.
End Descending.

(** ** Snapshots of the generator *)

Lemma generatePoint_fields rnd t activeFault pos k :
  let pt := fst (generatePoint rnd t activeFault pos) in
  pt_val pt k = Some (toFixed 3 (raw_reading rnd activeFault pos k)) /\
  pt_anomaly pt k =
    out_of_control (PARAMS k) (raw_reading rnd activeFault pos k).
Proof.
  destruct activeFault as [[nm fp dl du sv sg]|]; [destruct fp|]; destruct k;
    split; reflexivity.
Qed.

Lemma generatePoint_complete rnd t activeFault pos :
  complete (fst (generatePoint rnd t activeFault pos)).
Proof.
  intros k. destruct (generatePoint_fields rnd t activeFault pos k) as [H _].
  cbv zeta in H. rewrite H. discriminate.
Qed.

Lemma generatePoint_t2 rnd t activeFault pos :
  let pt := fst (generatePoint rnd t activeFault pos) in
  pt_t2 pt = fixed 3 (t2_full pt) /\
  pt_t2_anomaly pt = gtb (t2_full pt) (Fin T2_UCL).
Proof. split; reflexivity. Qed.

Lemma generatePoint_t rnd t activeFault pos :
  pt_t (fst (generatePoint rnd t activeFault pos)) = t.
Proof. reflexivity. Qed.

(** ** Standardized deviations of a complete snapshot *)

Lemma std_nonzero k : Qeq_bool (std (PARAMS k)) 0 = false.
Proof. now destruct k. Qed.

Lemma zscore_complete p k : pt_val p k <> None -> zscore p k = Fin (zq p k).
Proof.
  intro H. unfold zscore, zq. destruct (pt_val p k) as [q|]; [|congruence].
  cbn [of_prop sub lift2 div]. now rewrite std_nonzero.
Qed.

Lemma fold_sq_full p (l : list key) (a : Q) :
  complete p ->
  fold_left (fun sum k => let z := zscore p k in add sum (mul z z)) l (Fin a)
  = Fin (fold_left (fun s k => s + sq p k) l a).
Proof.
  intro Hc. revert a. induction l as [|k l IH]; intro a; [reflexivity|].
  cbn [fold_left]. cbv zeta. rewrite (zscore_complete p k (Hc k)).
  cbn [mul add lift2]. apply IH.
Qed.

Lemma fold_sq_without p k0 (l : list key) (a : Q) :
  complete p ->
  fold_left (fun sum k => if key_eqb k k0 then sum
                          else let z := zscore p k in add sum (mul z z))
            l (Fin a)
  = Fin (fold_left (fun s k => if key_eqb k k0 then s else s + sq p k) l a).
Proof.
  intro Hc. revert a. induction l as [|k l IH]; intro a; [reflexivity|].
  cbn [fold_left]. destruct (key_eqb k k0); [apply IH|].
  cbv zeta. rewrite (zscore_complete p k (Hc k)).
  cbn [mul add lift2]. apply IH.
Qed.

Lemma t2_full_complete p : complete p -> t2_full p = Fin (t2q p).
Proof. intro Hc. apply fold_sq_full, Hc. Qed.

Lemma rbc_of_complete p k :
  complete p -> r_rbc (rbc_of p k) = Fin (toFixed 4 (sq p k)).
Proof.
  intro Hc. unfold rbc_of. cbn [r_rbc].
  rewrite (t2_full_complete p Hc).
  change (t2_without p k) with
    (fold_left (fun sum k' => if key_eqb k' k then sum
                              else let z := zscore p k' in add sum (mul z z))
               PARAM_KEYS (Fin 0)).
  rewrite (fold_sq_without p k PARAM_KEYS 0 Hc).
  cbn [sub lift2 fixed]. f_equal. apply toFixed_comp.
  unfold t2q. destruct k; cbn [fold_left PARAM_KEYS key_eqb]; ring.
Qed.

Lemma contribution_of_complete p k :
  complete p -> c_value (contribution_of p k) = Fin (toFixed 4 (sq p k)).
Proof.
  intro Hc. unfold contribution_of. cbn [c_value].
  now rewrite (zscore_complete p k (Hc k)).
Qed.

(** ** Contributions and reconstruction *)

Lemma contribution_pairs_unsorted p :
  contribution_pairs p =
  sort (fun a b => sub (snd b) (snd a))
       (map (fun k => (k, c_value (contribution_of p k))) PARAM_KEYS).
Proof.
  unfold contribution_pairs, computeContributions.
  rewrite (sort_map (fun c => (c_key c, c_value c)) _
             (fun a b => sub (snd b) (snd a))) by reflexivity.
  now rewrite map_map.
Qed.

Lemma rbc_pairs_unsorted p :
  rbc_pairs p =
  sort (fun a b => sub (snd b) (snd a))
       (map (fun k => (k, r_rbc (rbc_of p k))) PARAM_KEYS).
Proof.
  unfold rbc_pairs, computeRBC.
  rewrite (sort_map (fun r => (r_key r, r_rbc r)) _
             (fun a b => sub (snd b) (snd a))) by reflexivity.
  now rewrite map_map.
Qed.




(** ** The sum of the contributions *)


Lemma qsum_perm l l' : Permutation l l' -> qsum l == qsum l'.
Proof.
  induction 1 as [|x l l' _ IH|x y l|l l' l'' _ IH1 _ IH2]; simpl.
  - reflexivity.
  - now rewrite IH.
  - ring.
  - now rewrite IH1.
Qed.

Lemma sum_values_finite (l : list contribution) :
  (forall c, In c l -> exists q, c_value c = Fin q) ->
  exists s, sum_values l = Fin s /\ s == qsum (map valq l).
Proof.
  unfold sum_values.
  assert (G : forall a,
             (forall c, In c l -> exists q, c_value c = Fin q) ->
             exists s, fold_left (fun s c => add s (c_value c)) l (Fin a) = Fin s
                       /\ s == a + qsum (map valq l)).
  { induction l as [|c l IH]; intros a H.
    - exists a. split; [reflexivity | simpl; ring].
    - destruct (H c (or_introl eq_refl)) as [q Hq].
      destruct (IH (a + q) (fun c' Hc' => H c' (or_intror Hc'))) as [s [E1 E2]].
      exists s. cbn [fold_left]. rewrite Hq. cbn [add lift2].
      split; [exact E1|]. rewrite E2. simpl. unfold valq at 2. rewrite Hq. ring. }
  intro H. destruct (G 0 H) as [s [E1 E2]]. exists s. split; [exact E1|].
  rewrite E2. ring.
Qed.

Lemma contributions_sum p :
  complete p ->
  exists s, sum_values (computeContributions p) = Fin s /\
            s == qsum (map (fun k => toFixed 4 (sq p k)) PARAM_KEYS).
Proof.
  intro Hc.
  assert (P : Permutation (computeContributions p)
                          (map (contribution_of p) PARAM_KEYS))
    by apply sort_perm.
  destruct (sum_values_finite (computeContributions p)) as [s [E1 E2]].
  { intros c Hin. apply (Permutation_in _ P) in Hin.
    apply in_map_iff in Hin. destruct Hin as [k [<- _]].
    eexists. now apply contribution_of_complete. }
  exists s. split; [exact E1|]. rewrite E2.
  rewrite (qsum_perm _ _ (Permutation_map valq P)), map_map.
  assert (E : map (fun k => valq (contribution_of p k)) PARAM_KEYS
              = map (fun k => toFixed 4 (sq p k)) PARAM_KEYS).
  { apply map_ext. intro k. unfold valq.
    now rewrite contribution_of_complete. }
  now rewrite E.
Qed.

Lemma Qabs_bound (x y e : Q) : Qabs (x - y) <= e <-> - e <= x - y <= e.
Proof. apply Qabs_Qle_condition. Qed.

(** C1, as amended. The figures that are stored are rounded, each
    contribution to four decimals and the joint statistic to three, so
    on every snapshot of [generatePoint] the sum of the contributions and
    the stored [t2] are two finite numbers that differ by no more than
    0.0008. *)
Theorem contributions_sum_near_t2 rnd t activeFault pos :
  let pt := fst (generatePoint rnd t activeFault pos) in
  exists s t2,
    sum_values (computeContributions pt) = Fin s /\
    pt_t2 pt = Fin t2 /\
    Qabs (s - t2) <= 0.0008.
Proof.
  intro pt.
  assert (Hc : complete pt) by apply generatePoint_complete.
  destruct (contributions_sum pt Hc) as [s [E1 E2]].
  exists s, (toFixed 3 (t2q pt)). split; [exact E1|]. split.
  - destruct (generatePoint_t2 rnd t activeFault pos) as [H _].
    fold pt in H. rewrite H, (t2_full_complete pt Hc). reflexivity.
  - assert (B : Qabs (toFixed 3 (t2q pt) - t2q pt) <= 1 # 2000)
      by exact (toFixed_err 3 (t2q pt)).
    assert (B4 : forall k, Qabs (toFixed 4 (sq pt k) - sq pt k) <= 1 # 20000)
      by exact (fun k => toFixed_err 4 (sq pt k)).
    apply Qabs_bound in B.
    pose proof (proj1 (Qabs_bound _ _ _) (B4 barrel_temp)) as B1.
    pose proof (proj1 (Qabs_bound _ _ _) (B4 screw_speed)) as B2.
    pose proof (proj1 (Qabs_bound _ _ _) (B4 melt_pressure)) as B3.
    pose proof (proj1 (Qabs_bound _ _ _) (B4 line_speed)) as B5.
    pose proof (proj1 (Qabs_bound _ _ _) (B4 die_pressure)) as B6.
    pose proof (proj1 (Qabs_bound _ _ _) (B4 wall_thickness)) as B7.
    clear B4. apply Qabs_bound. rewrite E2.
    unfold t2q in *. cbn [qsum map fold_right fold_left PARAM_KEYS] in *.
    split; lra.
Qed.

(** C1, refuted as stated: with a barrel temperature of 200.06 and every
    other reading at its mean, the contributions sum to 0.0004 while the
    stored [t2] is 0. *)
Lemma contributions_sum_differs_from_t2 :
  let pt := fst (generatePoint rnd_barrel 1 None 0) in
  pt_val pt barrel_temp = Some (10003 # 50) /\
  sum_values (computeContributions pt) = Fin (1 # 2500) /\
  pt_t2 pt = Fin 0 /\
  ~ (1 # 2500) == 0 /\
  sum_values (computeContributions pt) <> pt_t2 pt.
Proof.
  cbv zeta. repeat split; try (vm_compute; reflexivity).
  - discriminate.
  - vm_compute. discriminate.
Qed.

(** ** Diagnosis *)

Section DiagnosisFacts.
Variable sqrt : Q -> Q.

Lemma d_fault_score_of norm f : d_fault (score_of sqrt norm f) = f.
Proof.
  unfold score_of.
  now destruct (fold_left (accumulate f norm) PARAM_KEYS (0, 0, 0))
    as [[dot magFault] magObs].
Qed.

Lemma accumulate_magObs f norm (l : list key) (acc : Q * Q * Q) :
  (forall k, or0 (norm k) == 0) ->
  snd (fold_left (accumulate f norm) l acc) == snd acc.
Proof.
  intro Hz. revert acc. induction l as [|k l IH]; intro acc; [reflexivity|].
  cbn [fold_left]. rewrite IH. destruct acc as [[dot magFault] magObs].
  cbn [accumulate snd]. rewrite (Hz k). ring.
Qed.

Lemma score_of_zero norm f :
  (forall k, or0 (norm k) == 0) ->
  score_of sqrt norm f = mkDiagnosis f 0.
Proof.
  intro Hz. unfold score_of.
  pose proof (accumulate_magObs f norm PARAM_KEYS (0, 0, 0) Hz) as H.
  destruct (fold_left (accumulate f norm) PARAM_KEYS (0, 0, 0))
    as [[dot magFault] magObs].
  cbn [snd] in H. cbn [truthy].
  rewrite (Qeq_eq_bool _ _ H), andb_false_r. reflexivity.
Qed.

Lemma sum_values_zero cs :
  all_zero cs = true -> exists s, sum_values cs = Fin s /\ s == 0.
Proof.
  unfold sum_values, all_zero.
  assert (G : forall a, a == 0 ->
              forallb (fun c => zero_value (c_value c)) cs = true ->
              exists s, fold_left (fun s c => add s (c_value c)) cs (Fin a)
                        = Fin s /\ s == 0).
  { induction cs as [|c cs IH]; intros a Ha Hz.
    - now exists a.
    - cbn [forallb] in Hz. apply andb_true_iff in Hz. destruct Hz as [Hc Hz].
      cbn [fold_left]. destruct (c_value c) as [q|]; [|discriminate].
      apply Qeq_bool_eq in Hc. cbn [add lift2]. apply IH; [|exact Hz].
      rewrite Ha, Hc. reflexivity. }
  apply G. reflexivity.
Qed.

Lemma total_of_zero cs : all_zero cs = true -> total_of cs = Fin 1.
Proof.
  intro Hz. destruct (sum_values_zero cs Hz) as [s [E Hs]].
  unfold total_of, or_else. rewrite E. cbn [truthy].
  now rewrite (Qeq_eq_bool _ _ Hs).
Qed.

Lemma norm_of_zero cs k : all_zero cs = true -> or0 (norm_of cs k) == 0.
Proof.
  intro Hz. unfold norm_of. rewrite (total_of_zero cs Hz).
  assert (G : forall norm0 : key -> option num,
              or0 (norm0 k) == 0 ->
              or0 (fold_left
                     (fun norm c =>
                        set norm (c_key c) (Some (div (c_value c) (Fin 1))))
                     cs norm0 k) == 0).
  { unfold all_zero in Hz.
    induction cs as [|c cs IH]; intros norm0 H0; [exact H0|].
    cbn [forallb] in Hz. apply andb_true_iff in Hz. destruct Hz as [Hc Hz].
    cbn [fold_left]. apply (IH Hz). unfold set.
    destruct (key_eqb k (c_key c)); [|exact H0].
    destruct (c_value c) as [q|]; [|discriminate].
    apply Qeq_bool_eq in Hc. cbn [div or0].
    change (Qeq_bool 1 0) with false. cbn iota. rewrite Hc. reflexivity. }
  apply G. reflexivity.
Qed.

(** C3. Degenerate zero vector: when every contribution handed to
    [diagnoseFault] is zero, their sum is zero, the guard [|| 1] keeps
    the normalization from dividing by it, the zero norm of the
    observed vector short-circuits the similarity, and the ranking is
    the fault catalog in its own order with a score of 0 for every
    signature. *)
Theorem zero_vector_diagnosis (contributions : list contribution) :
  all_zero contributions = true ->
  (exists s, sum_values contributions = Fin s /\ s == 0) /\
  total_of contributions = Fin 1 /\
  ranking (diagnoseFault sqrt contributions)
  = map (fun f => (f, 0)) FAULT_MODES.
Proof.
  intro Hz. split; [now apply sum_values_zero|].
  split; [now apply total_of_zero|].
  unfold diagnoseFault.
  rewrite (map_ext (score_of sqrt (norm_of contributions))
                   (fun f => mkDiagnosis f 0)).
  - reflexivity.
  - intro f. apply score_of_zero. intro k. now apply norm_of_zero.
Qed.

Lemma filter_map {A B : Type} (g : A -> B) (p : B -> bool) (l : list A) :
  filter p (map g l) = map g (filter (fun a => p (g a)) l).
Proof.
  induction l as [|a l IH]; [reflexivity|].
  simpl. destruct (p (g a)); simpl; now rewrite IH.
Qed.

(** C7. Diagnosis tie-break: the ranking of [diagnoseFault] holds every
    signature of the catalog once, scores never increase along it, and
    for each score the signatures that received exactly that score
    appear in the order they have in the fault catalog. *)
Theorem diagnosis_tie_break (contributions : list contribution) :
  let out := diagnoseFault sqrt contributions in
  let score f := confidence (score_of sqrt (norm_of contributions) f) in
  Permutation (map d_fault out) FAULT_MODES /\
  StronglySorted (fun a b => confidence b <= confidence a) out /\
  forall c : Q,
    map d_fault (filter (fun d => Qeq_bool (confidence d) c) out)
    = filter (fun f => Qeq_bool (score f) c) FAULT_MODES.
Proof.
  intros out score.
  set (scores := map (score_of sqrt (norm_of contributions)) FAULT_MODES).
  assert (Hf : map d_fault scores = FAULT_MODES).
  { unfold scores. rewrite map_map.
    rewrite (map_ext _ (fun f => f)) by apply d_fault_score_of.
    apply map_id. }
  assert (Ho : out = sort (by_score confidence) scores) by reflexivity.
  split; [|split].
  - rewrite <- Hf, Ho. apply Permutation_map, sort_perm.
  - rewrite Ho. apply (sort_sorted confidence).
  - intro c. rewrite Ho.
    change (fun d => Qeq_bool (confidence d) c) with (has_score confidence c).
    rewrite sort_stable. unfold scores, has_score.
    rewrite filter_map, map_map.
    rewrite (map_ext _ (fun f => f)) by apply d_fault_score_of.
    apply map_id.
Qed.
End DiagnosisFacts.

(** C3 at the contributions of the nominal snapshot, every reading at
    its mean. *)
Lemma zero_vector_diagnosis_witness :
  all_zero (computeContributions nominal) = true /\
  ranking (diagnoseFault sqrt_floor (computeContributions nominal))
  = map (fun f => (f, 0)) FAULT_MODES.
Proof.
  split; [reflexivity|].
  apply (zero_vector_diagnosis sqrt_floor (computeContributions nominal)).
  reflexivity.
Defined.

(** ** The history window *)

Lemma slice_last_length {A : Type} (n : nat) (l : list A) :
  List.length (slice_last n l) = Nat.min n (List.length l).
Proof. unfold slice_last. rewrite length_skipn. lia. Qed.

Lemma slice_last_push {A : Type} (n : nat) (l : list A) (x : A) :
  (1 <= n)%nat ->
  slice_last n (slice_last n l ++ [x]) = slice_last n (l ++ [x]).
Proof.
  intro Hn. unfold slice_last.
  rewrite !length_app, length_skipn. cbn [List.length].
  rewrite !skipn_app, skipn_skipn, length_skipn.
  f_equal.
  - f_equal. lia.
  - f_equal; lia.
Qed.

(** ** One tick *)

(** The three branches of the countdown. *)
Ltac countdown_cases s :=
  unfold tick_countdown;
  now destruct (1 <? faultCdRef s)%Z, (faultCdRef s =? 1)%Z.

Section TickFacts.
Variable rnd : nat -> Q.

Lemma tick_eq s :
  tick rnd s =
  let s1 := tick_countdown s in
  tick_record (fst (tick_point rnd s))
    (mkState (data s1) (running s1) (activeFault s1) (faultCountdown s1)
             (alarmLog s1) (tickCount s1) (tRef s1) (faultRef s1)
             (faultCdRef s1) (snd (tick_point rnd s))).
Proof.
  unfold tick, tick_point. cbv zeta.
  now destruct (generatePoint rnd _ _ _) as [pt pos].
Qed.

Lemma countdown_tRef s : tRef (tick_countdown s) = (tRef s + 1)%Z.
Proof.
  countdown_cases s.
Qed.

Lemma countdown_data s : data (tick_countdown s) = data s.
Proof.
  countdown_cases s.
Qed.

Lemma countdown_alarmLog s : alarmLog (tick_countdown s) = alarmLog s.
Proof.
  countdown_cases s.
Qed.

Lemma countdown_running s : running (tick_countdown s) = running s.
Proof.
  countdown_cases s.
Qed.

Lemma countdown_faultCdRef s :
  faultCdRef (tick_countdown s) =
  (if 1 <? faultCdRef s then faultCdRef s - 1
   else if faultCdRef s =? 1 then 0 else faultCdRef s)%Z.
Proof.
  countdown_cases s.
Qed.

Lemma countdown_faultRef s :
  faultRef (tick_countdown s) =
  (if 1 <? faultCdRef s then faultRef s
   else if faultCdRef s =? 1 then None else faultRef s)%Z.
Proof.
  countdown_cases s.
Qed.

Lemma countdown_activeFault s :
  activeFault (tick_countdown s) =
  (if 1 <? faultCdRef s then activeFault s
   else if faultCdRef s =? 1 then None else activeFault s)%Z.
Proof.
  countdown_cases s.
Qed.

Lemma tick_point_eq s :
  tick_point rnd s =
  generatePoint rnd (tRef s + 1) (faultRef (tick_countdown s)) (rngPos s).
Proof.
  unfold tick_point. cbv zeta. rewrite countdown_tRef. f_equal.
  countdown_cases s.
Qed.

Lemma tick_tRef s : tRef (tick rnd s) = (tRef s + 1)%Z.
Proof. rewrite tick_eq. cbn. apply countdown_tRef. Qed.

Lemma tick_tickCount s : tickCount (tick rnd s) = (tRef s + 1)%Z.
Proof. rewrite tick_eq. cbn. apply countdown_tRef. Qed.

Lemma tick_data s :
  data (tick rnd s) = slice_last 120 (data s ++ [fst (tick_point rnd s)]).
Proof. rewrite tick_eq. cbn [tick_record data]. now rewrite countdown_data. Qed.

Lemma tick_running s : running (tick rnd s) = running s.
Proof. rewrite tick_eq. cbn. apply countdown_running. Qed.

Lemma tick_faultCdRef s :
  faultCdRef (tick rnd s) = faultCdRef (tick_countdown s).
Proof. rewrite tick_eq. reflexivity. Qed.

Lemma tick_faultRef s : faultRef (tick rnd s) = faultRef (tick_countdown s).
Proof. rewrite tick_eq. reflexivity. Qed.

Lemma tick_activeFault s :
  activeFault (tick rnd s) = activeFault (tick_countdown s).
Proof. rewrite tick_eq. reflexivity. Qed.

Lemma tick_alarmLog s :
  alarmLog (tick rnd s) =
  match newAlarms (tRef s + 1) (fst (tick_point rnd s)) with
  | [] => alarmLog s
  | a :: rest => firstn 80 ((a :: rest) ++ alarmLog s)
  end.
Proof.
  rewrite tick_eq. cbn [tick_record alarmLog tRef].
  rewrite countdown_tRef, countdown_alarmLog.
  now destruct (newAlarms _ _).
Qed.
End TickFacts.

(** ** Runs of the controller *)

Section RunFacts.
Variable rnd : nat -> Q.

Lemma step_data s e acc :
  data s = slice_last 120 acc ->
  data (step rnd s e) =
  slice_last 120
    (match e with
     | Timer => if running s then acc ++ [fst (tick_point rnd s)] else acc
     | Reset => []
     | _ => acc
     end).
Proof.
  intro H. destruct e; cbn [step].
  - exact H.
  - destruct (running s); [|exact H].
    rewrite tick_data, H. apply slice_last_push. lia.
  - now destruct (running s).
  - reflexivity.
Qed.

Lemma run_data es : forall s acc,
  data s = slice_last 120 acc ->
  data (run rnd s es) = slice_last 120 (accepted rnd s es acc).
Proof.
  induction es as [|e es IH]; intros s acc H; [exact H|].
  cbn [run fold_left accepted]. apply IH. now apply step_data.
Qed.

(** C9. Bounded history: after any sequence of events from the initial
    state, the history window is the snapshots accepted since the last
    reset with the oldest ones dropped: it holds the last 120 of them in
    arrival order, all of them while there are no more than 120, and
    never more than 120. *)
Theorem bounded_history (es : list event) :
  let s := run rnd initial es in
  let fed := accepted rnd initial es [] in
  data s = skipn (List.length fed - 120) fed /\
  fed = firstn (List.length fed - 120) fed ++ data s /\
  List.length (data s) = Nat.min 120 (List.length fed) /\
  (List.length (data s) <= 120)%nat.
Proof.
  intros s fed.
  assert (H : data s = slice_last 120 fed) by (apply run_data; reflexivity).
  split; [exact H|]. split; [|split].
  - rewrite H. unfold slice_last. symmetry. apply firstn_skipn.
  - rewrite H. apply slice_last_length.
  - rewrite H, slice_last_length. lia.
Qed.
End RunFacts.

(** ** The alarm log *)

Lemma push_alarms (f : key -> alarm) (p : key -> bool) (l : list key) acc :
  fold_left (fun acc k => if p k then acc ++ [f k] else acc) l acc
  = acc ++ map f (filter p l).
Proof.
  revert acc. induction l as [|k l IH]; intro acc; cbn [fold_left filter].
  - now rewrite app_nil_r.
  - rewrite IH. destruct (p k); [|reflexivity].
    now rewrite <- app_assoc.
Qed.

Lemma newAlarms_eq t pt :
  newAlarms t pt =
  map (param_alarm t pt) (filter (pt_anomaly pt) PARAM_KEYS)
  ++ (if pt_t2_anomaly pt then [t2_alarm t pt] else []).
Proof.
  unfold newAlarms. rewrite push_alarms. cbn [app].
  destruct (pt_t2_anomaly pt); [reflexivity | now rewrite app_nil_r].
Qed.

(** C6, as amended. On every tick the controller puts in front of the
    alarm log, which it keeps to 80 lines, one event for each parameter
    whose out-of-control flag is set in the snapshot of that tick, in
    registry order, and one more when the joint statistic is out of
    control; the previous snapshot plays no part. *)
Theorem alarms_per_flagged_parameter rnd (s : state) :
  let t := (tRef s + 1)%Z in
  let pt := fst (tick_point rnd s) in
  let events :=
    map (param_alarm t pt) (filter (pt_anomaly pt) PARAM_KEYS)
    ++ (if pt_t2_anomaly pt then [t2_alarm t pt] else []) in
  alarmLog (tick rnd s) =
    match events with
    | [] => alarmLog s
    | _ => firstn 80 (events ++ alarmLog s)
    end /\
  List.length events =
    (List.length (filter (pt_anomaly pt) PARAM_KEYS)
     + (if pt_t2_anomaly pt then 1 else 0))%nat.
Proof.
  intros t pt events. split.
  - rewrite tick_alarmLog. fold t pt. rewrite newAlarms_eq. fold events.
    now destruct events.
  - unfold events. rewrite length_app, length_map.
    now destruct (pt_t2_anomaly pt).
Qed.

(** C6, refuted as stated: with Die Wear injected, die pressure is out
    of control on the first and again on the second snapshot, it is
    therefore not newly out of control on the second, and the second tick
    still logs a die-pressure event. *)
Lemma alarm_repeats_on_second_excursion :
  let s1 := run rnd_half initial [Toggle; Inject die_wear; Timer] in
  let s2 := step rnd_half s1 Timer in
  exists p1 p2,
    data s1 = [p1] /\ data s2 = [p1; p2] /\
    pt_anomaly p1 die_pressure = true /\
    pt_anomaly p2 die_pressure = true /\
    newly_out_of_control (Some p1) p2 die_pressure = false /\
    map a_id (alarmLog s1) = [(1, Some die_pressure); (1, None)]%Z /\
    map a_id (alarmLog s2) =
      [(2, Some die_pressure); (2, None);
       (1, Some die_pressure); (1, None)]%Z.
Proof.
  cbv zeta.
  exists (fst (tick_point rnd_half
                 (run rnd_half initial [Toggle; Inject die_wear]))).
  exists (fst (tick_point rnd_half
                 (run rnd_half initial [Toggle; Inject die_wear; Timer]))).
  repeat split; vm_compute; reflexivity.
Qed.

(** ** Fault injection *)

Section InjectFacts.
Variable rnd : nat -> Q.

Lemma ticks_succ n s : ticks rnd (S n) s = ticks rnd n (tick rnd s).
Proof. apply Nat.iter_succ_r. Qed.

Lemma countdown_run f : forall n s,
  faultCdRef s = Z.of_nat (S n) -> faultRef s = Some f ->
  faults_used rnd (S n) s = repeat (Some f) n ++ [None] /\
  faultRef (ticks rnd (S n) s) = None /\
  activeFault (ticks rnd (S n) s) = None /\
  forall i, (i <= S n)%nat ->
            faultCdRef (ticks rnd i s) = (Z.of_nat (S n) - Z.of_nat i)%Z.
Proof.
  induction n as [|n IH]; intros s Hcd Hf.
  - cbn [faults_used repeat app]. rewrite countdown_faultRef, Hcd.
    change (ticks rnd 1 s) with (tick rnd s).
    rewrite tick_faultRef, countdown_faultRef.
    rewrite tick_activeFault, countdown_activeFault, Hcd.
    repeat split.
    intros i Hi. assert (i = 0 \/ i = 1)%nat as [-> | ->] by lia.
    + change (ticks rnd 0 s) with s. rewrite Hcd. reflexivity.
    + change (ticks rnd 1 s) with (tick rnd s).
      rewrite tick_faultCdRef, countdown_faultCdRef, Hcd. reflexivity.
  - assert (Hgt : (1 <? faultCdRef s)%Z = true)
      by (apply Z.ltb_lt; lia).
    assert (Hcd' : faultCdRef (tick rnd s) = Z.of_nat (S n)).
    { rewrite tick_faultCdRef, countdown_faultCdRef, Hgt. lia. }
    assert (Hf' : faultRef (tick rnd s) = Some f).
    { now rewrite tick_faultRef, countdown_faultRef, Hgt. }
    destruct (IH (tick rnd s) Hcd' Hf') as [H1 [H2 [H3 H4]]].
    split; [|split; [|split]].
    + change (faults_used rnd (S (S n)) s)
        with (faultRef (tick_countdown s)
              :: faults_used rnd (S n) (tick rnd s)).
      rewrite H1, countdown_faultRef, Hgt, Hf. reflexivity.
    + rewrite ticks_succ. exact H2.
    + rewrite ticks_succ. exact H3.
    + intros [|i] Hi.
      * change (ticks rnd 0 s) with s. lia.
      * rewrite ticks_succ, H4 by lia. lia.
Qed.

(** C4, what the code does. After [injectFault f], with [N] the duration
    of [f]: the countdown goes down by one on every tick and reaches zero
    on the [N]-th, where the active fault is cleared; the ticks hand [f]
    to [generatePoint] for the first [N - 1] snapshots only and hand it
    no fault for the [N]-th, because the countdown is updated before the
    snapshot is generated. *)
Theorem injected_fault_countdown (f : fault) (s : state) :
  (1 <= f_duration f)%Z ->
  let n := Z.to_nat (f_duration f) in
  let s0 := injectFault f s in
  faults_used rnd n s0 = repeat (Some f) (n - 1) ++ [None] /\
  faultRef (ticks rnd n s0) = None /\
  activeFault (ticks rnd n s0) = None /\
  forall i, (i <= n)%nat ->
            faultCdRef (ticks rnd i s0) = (f_duration f - Z.of_nat i)%Z.
Proof.
  intros Hd n s0.
  assert (Hn : n = S (n - 1)) by (unfold n; lia).
  assert (Hcd : faultCdRef s0 = Z.of_nat (S (n - 1))).
  { rewrite <- Hn. unfold n, s0. cbn. lia. }
  destruct (countdown_run f (n - 1) s0 Hcd eq_refl) as [H1 [H2 [H3 H4]]].
  rewrite <- Hn in H1, H2, H3, H4.
  split; [exact H1|]. split; [exact H2|]. split; [exact H3|].
  intros i Hi. rewrite (H4 i Hi). unfold n. lia.
Qed.

Lemma snapshots_faults_used n : forall s,
  snapshots rnd n s =
  map (fun '(af, (t, pos)) => fst (generatePoint rnd t af pos))
      (combine (faults_used rnd n s)
               (map (fun i => ((tRef (ticks rnd i s) + 1)%Z,
                               rngPos (ticks rnd i s)))
                    (seq 0 n))).
Proof.
  induction n as [|n IH]; intro s; [reflexivity|].
  cbn [snapshots faults_used seq map combine].
  rewrite tick_point_eq. f_equal.
  rewrite IH, <- seq_shift, map_map. do 2 f_equal.
  apply map_ext. intro i. now rewrite ticks_succ.
Qed.
End InjectFacts.

(** C4 at Screw Slip, whose duration is 6, injected into the running
    controller. *)
Lemma injected_fault_countdown_witness :
  (1 <= f_duration screw_slip)%Z /\
  faults_used rnd_half 6 (injectFault screw_slip (step rnd_half initial Toggle))
  = [Some screw_slip; Some screw_slip; Some screw_slip; Some screw_slip;
     Some screw_slip; None].
Proof.
  split; [cbn; lia|].
  apply (injected_fault_countdown rnd_half screw_slip
           (step rnd_half initial Toggle)).
  cbn. lia.
Defined.

(** The six snapshots that follow: the screw speed carries the bias of
    -12 on five of them and is back at its mean of 85 on the sixth. *)
Lemma screw_slip_sixth_snapshot_unbiased :
  let s0 := injectFault screw_slip (step rnd_half initial Toggle) in
  map (fun p => (pt_t p, pt_val p screw_speed, pt_anomaly p screw_speed))
      (snapshots rnd_half 6 s0)
  = [(1%Z, Some 73, true); (2%Z, Some 73, true); (3%Z, Some 73, true);
     (4%Z, Some 73, true); (5%Z, Some 73, true); (6%Z, Some 85, false)].
Proof. vm_compute. reflexivity. Qed.

(** ** Snapshots with a reading missing *)



(** ** Control limits *)

Lemma out_of_control_iff cfg x :
  out_of_control cfg x = true <-> ucl cfg < x \/ x < lcl cfg.
Proof.
  unfold out_of_control. rewrite orb_true_iff, !Qltb_lt. reflexivity.
Qed.

Lemma rnd_line_edge_range : unit_range rnd_line_edge.
Proof.
  intro n.
  do 5 (destruct n as [|n]; [split; [discriminate | reflexivity]|]).
  split; [discriminate | reflexivity].
Qed.

Lemma rnd_lcl_range : unit_range rnd_lcl.
Proof.
  intro n.
  do 7 (destruct n as [|n]; [split; [discriminate | reflexivity]|]).
  split; [discriminate | reflexivity].
Qed.



(** C8 on a generated snapshot: under Thin Wall a wall thickness drawn
    exactly at the lower limit 1.05 is stored with its flag unset. *)
Lemma reading_on_lower_limit_not_flagged :
  let pt := fst (generatePoint rnd_lcl 1 (Some thin_wall) 0) in
  raw_reading rnd_lcl (Some thin_wall) 0 wall_thickness == lcl (PARAMS wall_thickness) /\
  pt_anomaly pt wall_thickness = false.
Proof. split; reflexivity. Qed.

(** C10. In every snapshot of [generatePoint] the reading stored for a
    parameter is the drawn value rounded to three decimals, while the
    flag stored for it is the out-of-control test of the drawn value
    itself; so the flag is not determined by the stored reading: under
    Line Slowdown a line speed drawn at 40.4996 is flagged, being below
    40.5, while the stored reading is 40.5, on which the same test
    answers false. *)
Theorem flag_tests_unrounded_value :
  (forall rnd t activeFault pos k,
      let pt := fst (generatePoint rnd t activeFault pos) in
      let val := raw_reading rnd activeFault pos k in
      pt_val pt k = Some (toFixed 3 val) /\
      pt_anomaly pt k = out_of_control (PARAMS k) val) /\
  (exists rnd t activeFault pos k stored,
      unit_range rnd /\
      let pt := fst (generatePoint rnd t activeFault pos) in
      pt_val pt k = Some stored /\
      pt_anomaly pt k = true /\
      out_of_control (PARAMS k) stored = false).
Proof.
  split; [exact generatePoint_fields|].
  exists rnd_line_edge, 1%Z, (Some line_slowdown), 0%nat, line_speed, (81 # 2).
  split; [exact rnd_line_edge_range|].
  cbv zeta. repeat split; vm_compute; reflexivity.
Qed.

(** The snapshot behind the second half of C10. *)
Lemma line_speed_flag_and_reading :
  let pt := fst (generatePoint rnd_line_edge 1 (Some line_slowdown) 0) in
  raw_reading rnd_line_edge (Some line_slowdown) 0 line_speed == 40.4996 /\
  pt_val pt line_speed = Some (81 # 2) /\
  pt_anomaly pt line_speed = true /\
  out_of_control (PARAMS line_speed) (81 # 2) = false.
Proof. repeat split; vm_compute; reflexivity. Qed.

(** ** Worked examples *)

Example toFixed_examples :
  toFixed 3 40.4996 = (81 # 2) /\
  toFixed 3 (- 0.0005) = Qred (- 0.001) /\
  toFixed 4 0.00005 = Qred 0.0001 /\
  toFixed 1 99.94 = Qred 99.9.
Proof. repeat split; vm_compute; reflexivity. Qed.

(** A barrel temperature of 203 and a melt pressure of 292: deviations of
    1 and 1.5, contributions of 1 and 2.25, ranked highest first. *)
Example sample_contributions :
  contribution_pairs sample =
  [(melt_pressure, Fin (9 # 4)); (barrel_temp, Fin 1); (screw_speed, Fin 0);
   (line_speed, Fin 0); (die_pressure, Fin 0); (wall_thickness, Fin 0)] /\
  rbc_pairs sample = contribution_pairs sample /\
  fixed 3 (t2_full sample) = Fin (13 # 4).
Proof. repeat split; vm_compute; reflexivity. Qed.

(** After 125 ticks the window holds the snapshots 6 to 125. *)
Example history_after_125_ticks :
  let s := ticks rnd_half 125 (step rnd_half initial Toggle) in
  List.length (data s) = 120%nat /\
  map pt_t (firstn 2 (data s)) = [6%Z; 7%Z] /\
  map pt_t (skipn 118 (data s)) = [124%Z; 125%Z].
Proof. repeat split; vm_compute; reflexivity. Qed.

(** * Further properties *)

(** ** Rounding and the decimal grid *)

Lemma Qfloor_ge (m : Z) (y : Q) : inject_Z m <= y -> (m <= Qfloor y)%Z.
Proof.
  intro H. rewrite <- (Qfloor_Z m). now apply Qfloor_resp_le.
Qed.

Lemma Qfloor_lt_succ (m : Z) (y : Q) : y < inject_Z (m + 1) -> (Qfloor y <= m)%Z.
Proof.
  intro H. pose proof (Qfloor_le y) as L.
  assert (inject_Z (Qfloor y) < inject_Z (m + 1)) as L' by lra.
  rewrite <- Zlt_Qlt in L'. lia.
Qed.

(** A number on the [k]-decimal grid is [m / 10^k] for an integer [m].
    Rounding never crosses a grid point. *)
Lemma toFixed_above_grid k (m : Z) (x : Q) :
  m # pow10 k <= x -> m # pow10 k <= toFixed k x.
Proof.
  intro H. unfold toFixed.
  destruct (Qle_bool _ (Qabs x)); rewrite Qred_correct; [exact H|].
  set (P := pow10 k) in *.
  assert (HP : 0 < inject_Z (Z.pos P)) by reflexivity.
  assert (Hx : inject_Z m <= x * inject_Z (Z.pos P)).
  { rewrite (Qmake_Qdiv m P) in H.
    apply (Qmult_le_compat_r _ _ (inject_Z (Z.pos P))) in H; [|lra].
    assert (E : inject_Z m / inject_Z (Z.pos P) * inject_Z (Z.pos P)
                == inject_Z m) by (field; lra).
    rewrite E in H. exact H. }
  assert (G : forall a b : Z, (a <= b)%Z -> a # P <= b # P).
  { intros a b L. unfold Qle. cbn. nia. }
  apply G. destruct (Qltb x 0) eqn:Hs.
  - apply Qltb_lt in Hs. rewrite (Qabs_neg x) by lra.
    assert ((Qfloor (- x * inject_Z (Z.pos P) + (1 # 2)) <= - m)%Z); [|lia].
    apply Qfloor_lt_succ. rewrite inject_Z_plus, inject_Z_opp.
    change (inject_Z 1) with 1. lra.
  - assert (Hs' : 0 <= x).
    { apply Qnot_lt_le. intro L. apply Qltb_lt in L. congruence. }
    rewrite (Qabs_pos x Hs'). apply Qfloor_ge. lra.
Qed.

Lemma toFixed_below_grid k (m : Z) (x : Q) :
  x <= m # pow10 k -> toFixed k x <= m # pow10 k.
Proof.
  intro H. unfold toFixed.
  destruct (Qle_bool _ (Qabs x)); rewrite Qred_correct; [exact H|].
  set (P := pow10 k) in *.
  assert (HP : 0 < inject_Z (Z.pos P)) by reflexivity.
  assert (Hx : x * inject_Z (Z.pos P) <= inject_Z m).
  { rewrite (Qmake_Qdiv m P) in H.
    apply (Qmult_le_compat_r _ _ (inject_Z (Z.pos P))) in H; [|lra].
    assert (E : inject_Z m / inject_Z (Z.pos P) * inject_Z (Z.pos P)
                == inject_Z m) by (field; lra).
    rewrite E in H. exact H. }
  assert (G : forall a b : Z, (a <= b)%Z -> a # P <= b # P).
  { intros a b L. unfold Qle. cbn. nia. }
  apply G. destruct (Qltb x 0) eqn:Hs.
  - apply Qltb_lt in Hs. rewrite (Qabs_neg x) by lra.
    assert ((- m <= Qfloor (- x * inject_Z (Z.pos P) + (1 # 2)))%Z); [|lia].
    apply Qfloor_ge. rewrite inject_Z_opp. lra.
  - assert (Hs' : 0 <= x).
    { apply Qnot_lt_le. intro L. apply Qltb_lt in L. congruence. }
    rewrite (Qabs_pos x Hs'). apply Qfloor_lt_succ.
    rewrite inject_Z_plus. change (inject_Z 1) with 1. lra.
Qed.

Lemma toFixed_nonneg k x : 0 <= x -> 0 <= toFixed k x.
Proof.
  intro H. assert (E : 0 == 0 # pow10 k) by reflexivity.
  rewrite E. apply toFixed_above_grid. now rewrite <- E.
Qed.

(** ** The generator without a fault *)

Lemma raw_in_band rnd pos k :
  unit_range rnd ->
  mean (PARAMS k) - std (PARAMS k) <= raw_reading rnd None pos k
  /\ raw_reading rnd None pos k < mean (PARAMS k) + std (PARAMS k).
Proof.
  intro H. unfold raw_reading, raw_val. cbn [fst].
  pose proof (H (cursor None pos k)) as [H0 H1].
  destruct k; cbn [PARAMS mean std] in *; split; lra.
Qed.

(** The stored reading of a parameter that carries no bias stays within
    one standard deviation of the mean. *)
Lemma stored_in_band (k : key) (raw : Q) :
  mean (PARAMS k) - std (PARAMS k) <= raw ->
  raw <= mean (PARAMS k) + std (PARAMS k) ->
  mean (PARAMS k) - std (PARAMS k) <= toFixed 3 raw
  /\ toFixed 3 raw <= mean (PARAMS k) + std (PARAMS k).
Proof.
  intros Hlo Hhi.
  assert (G : exists a b : Z,
             mean (PARAMS k) - std (PARAMS k) == a # pow10 3 /\
             mean (PARAMS k) + std (PARAMS k) == b # pow10 3).
  { destruct k;
      [exists 197000%Z, 203000%Z | exists 83000%Z, 87000%Z
      |exists 272000%Z, 288000%Z | exists 43500%Z, 46500%Z
      |exists 175000%Z, 185000%Z | exists 1150%Z, 1250%Z];
      split; reflexivity. }
  destruct G as [a [b [Ea Eb]]].
  rewrite Ea in *. rewrite Eb in *.
  split; [now apply toFixed_above_grid | now apply toFixed_below_grid].
Qed.

Lemma square_le_1 (z : Q) : -1 <= z -> z <= 1 -> z * z <= 1.
Proof. intros. nra. Qed.

Lemma sq_in_band p k v :
  pt_val p k = Some v ->
  mean (PARAMS k) - std (PARAMS k) <= v ->
  v <= mean (PARAMS k) + std (PARAMS k) ->
  0 <= sq p k <= 1.
Proof.
  intros E Hlo Hhi. unfold sq, zq. rewrite E.
  set (z := (v - mean (PARAMS k)) / std (PARAMS k)).
  assert (Hz : -1 <= z /\ z <= 1).
  { assert (Ez : z * std (PARAMS k) == v - mean (PARAMS k)).
    { unfold z. field. destruct k; discriminate. }
    clearbody z. destruct k; cbn [PARAMS mean std] in *; split; lra. }
  split; [nra | apply square_le_1; tauto].
Qed.

Lemma t2q_in_band p :
  (forall k, exists v, pt_val p k = Some v /\
                       mean (PARAMS k) - std (PARAMS k) <= v /\
                       v <= mean (PARAMS k) + std (PARAMS k)) ->
  0 <= t2q p <= 6.
Proof.
  intro H.
  assert (B : forall k, 0 <= sq p k <= 1).
  { intro k. destruct (H k) as [v [E [Hlo Hhi]]].
    now apply (sq_in_band p k v). }
  pose proof (B barrel_temp). pose proof (B screw_speed).
  pose proof (B melt_pressure). pose proof (B line_speed).
  pose proof (B die_pressure). pose proof (B wall_thickness).
  unfold t2q. cbn [fold_left PARAM_KEYS]. lra.
Qed.

Lemma unbiased_unflagged rnd t pos k :
  unit_range rnd ->
  pt_anomaly (fst (generatePoint rnd t None pos)) k = false.
Proof.
  intro Hr. destruct (generatePoint_fields rnd t None pos k) as [_ E].
  cbv zeta in E. rewrite E.
  destruct (raw_in_band rnd pos k Hr) as [Hlo Hhi].
  destruct (out_of_control (PARAMS k) (raw_reading rnd None pos k)) eqn:O;
    [|reflexivity].
  apply out_of_control_iff in O.
  destruct k; cbn [PARAMS mean std ucl lcl] in *; lra.
Qed.

Lemma unbiased_t2q rnd t pos :
  unit_range rnd ->
  0 <= t2q (fst (generatePoint rnd t None pos)) <= 6.
Proof.
  intro Hr. apply t2q_in_band. intro k.
  destruct (generatePoint_fields rnd t None pos k) as [E _].
  cbv zeta in E. eexists. split; [exact E|].
  destruct (raw_in_band rnd pos k Hr) as [Hlo Hhi].
  apply stored_in_band; lra.
Qed.

Lemma unflagged_no_alarms t pt :
  (forall k, pt_anomaly pt k = false) -> pt_t2_anomaly pt = false ->
  newAlarms t pt = [].
Proof.
  intros Hf Ht. rewrite newAlarms_eq, Ht.
  assert (F : filter (pt_anomaly pt) PARAM_KEYS = []).
  { unfold PARAM_KEYS. cbn [filter]. now rewrite !Hf. }
  now rewrite F.
Qed.

Lemma unbiased_t2_unflagged rnd t pos :
  unit_range rnd ->
  pt_t2_anomaly (fst (generatePoint rnd t None pos)) = false.
Proof.
  intro Hr. set (pt := fst (generatePoint rnd t None pos)).
  assert (Hc : complete pt) by apply generatePoint_complete.
  destruct (generatePoint_t2 rnd t None pos) as [_ E3]. fold pt in E3.
  rewrite (t2_full_complete pt Hc) in E3. rewrite E3. cbn [gtb].
  destruct (Qltb T2_UCL (t2q pt)) eqn:L; [|reflexivity].
  apply Qltb_lt in L. unfold T2_UCL in L.
  pose proof (unbiased_t2q rnd t pos Hr) as B. fold pt in B. lra.
Qed.

(** Without an active fault no reading leaves its one-sigma band, so no
    flag is set, the joint statistic stays at or below 6, and no alarm is
    raised. *)
Theorem no_alarm_without_fault rnd t pos :
  unit_range rnd ->
  let pt := fst (generatePoint rnd t None pos) in
  (forall k, pt_anomaly pt k = false) /\
  pt_t2_anomaly pt = false /\
  (exists q, pt_t2 pt = Fin q /\ 0 <= q <= 6) /\
  newAlarms t pt = [].
Proof.
  intros Hr pt.
  assert (Hf : forall k, pt_anomaly pt k = false)
    by (intro k; now apply unbiased_unflagged).
  assert (Ht : pt_t2_anomaly pt = false) by now apply unbiased_t2_unflagged.
  split; [exact Hf|]. split; [exact Ht|]. split.
  - assert (Hc : complete pt) by apply generatePoint_complete.
    destruct (generatePoint_t2 rnd t None pos) as [E2 _]. fold pt in E2.
    rewrite (t2_full_complete pt Hc) in E2.
    pose proof (unbiased_t2q rnd t pos Hr) as Hb. fold pt in Hb.
    exists (toFixed 3 (t2q pt)). split; [exact E2|]. split.
    + apply toFixed_nonneg. tauto.
    + assert (E6 : 6 == 6000 # pow10 3) by reflexivity.
      rewrite E6. apply toFixed_below_grid. rewrite <- E6. tauto.
  - now apply unflagged_no_alarms.
Qed.

Lemma no_alarm_without_fault_witness :
  unit_range rnd_half /\
  newAlarms 1 (fst (generatePoint rnd_half 1 None 0)) = [].
Proof.
  assert (H : unit_range rnd_half) by (intro n; split; [discriminate | reflexivity]).
  split; [exact H|].
  apply (no_alarm_without_fault rnd_half 1 0 H).
Defined.

(** ** The ranking of the contributions *)

Lemma insert_ext_in {A : Type} (cmp cmp' : A -> A -> num) x l :
  (forall y, In y l -> cmp x y = cmp' x y) ->
  insert cmp x l = insert cmp' x l.
Proof.
  induction l as [|y l IH]; intro H; [reflexivity|].
  cbn [insert]. rewrite (H y (or_introl eq_refl)).
  destruct (gtb (cmp' x y) (Fin 0)); [|reflexivity].
  f_equal. apply IH. intros z Hz. apply H. now right.
Qed.

Lemma sort_ext_in {A : Type} (cmp cmp' : A -> A -> num) l :
  (forall x y, In x l -> In y l -> cmp x y = cmp' x y) ->
  sort cmp l = sort cmp' l.
Proof.
  induction l as [|x l IH]; intro H; [reflexivity|].
  cbn [sort]. rewrite IH by (intros; apply H; now right).
  apply insert_ext_in. intros y Hy. apply H; [now left|].
  right. apply (Permutation_in _ (sort_perm cmp' l) Hy).
Qed.

Lemma computeContributions_by_score p :
  complete p ->
  computeContributions p
  = sort (by_score valq) (map (contribution_of p) PARAM_KEYS).
Proof.
  intro Hc. unfold computeContributions. apply sort_ext_in.
  intros x y Hx Hy. apply in_map_iff in Hx, Hy.
  destruct Hx as [kx [<- _]], Hy as [ky [<- _]].
  unfold by_score, valq. now rewrite !contribution_of_complete.
Qed.

Lemma contribution_key p k : c_key (contribution_of p k) = k.
Proof. reflexivity. Qed.



(** ** The generator under a fault *)

Lemma raw_in_band_other rnd f pos k :
  unit_range rnd ->
  k <> f_param f ->
  mean (PARAMS k) - std (PARAMS k) <= raw_reading rnd (Some f) pos k
  /\ raw_reading rnd (Some f) pos k < mean (PARAMS k) + std (PARAMS k).
Proof.
  intros H Hk. unfold raw_reading, raw_val.
  assert (E : key_eqb (f_param f) k = false).
  { destruct (key_eqb (f_param f) k) eqn:E; [|reflexivity].
    apply key_eqb_eq in E. congruence. }
  rewrite E. cbn [fst].
  pose proof (H (cursor (Some f) pos k)) as [H0 H1].
  destruct k; cbn [PARAMS mean std] in *; split; lra.
Qed.

(** The biased reading of the driver of a catalog fault lies at least
    1.7 standard deviations from the mean, on the side of [delta]. *)
Lemma raw_driver_far rnd f pos :
  unit_range rnd ->
  In f FAULT_MODES ->
  let k := f_param f in
  let raw := raw_reading rnd (Some f) pos k in
  (f_delta f < 0 /\ raw <= mean (PARAMS k) - (17 # 10) * std (PARAMS k)) \/
  (0 < f_delta f /\ mean (PARAMS k) + (17 # 10) * std (PARAMS k) <= raw).
Proof.
  intros H Hin. cbv zeta.
  assert (B : forall n, 0 <= rnd n /\ rnd n < 1) by exact H.
  unfold FAULT_MODES in Hin. cbn [In] in Hin.
  destruct Hin as [<-|[<-|[<-|[<-|[<-|[<-|[]]]]]]];
    unfold raw_reading, raw_val;
    cbn [f_param f_delta die_wear screw_slip temp_spike pressure_surge
         line_slowdown thin_wall key_eqb fst PARAMS mean std];
    match goal with
    | |- context [rnd (S ?n)] =>
        pose proof (B n) as [? ?]; pose proof (B (S n)) as [? ?]
    end;
    (left; split; [reflexivity | lra]) || (right; split; [reflexivity | lra]).
Qed.

Lemma non_driver_unflagged rnd t pos f k :
  unit_range rnd ->
  k <> f_param f ->
  pt_anomaly (fst (generatePoint rnd t (Some f) pos)) k = false.
Proof.
  intros H Hk.
  destruct (generatePoint_fields rnd t (Some f) pos k) as [_ E].
  cbv zeta in E. rewrite E.
  destruct (raw_in_band_other rnd f pos k H Hk) as [Hlo Hhi].
  destruct (out_of_control (PARAMS k) (raw_reading rnd (Some f) pos k)) eqn:O;
    [|reflexivity].
  apply out_of_control_iff in O.
  destruct k; cbn [PARAMS mean std ucl lcl] in *; lra.
Qed.

Lemma driver_flagged rnd t pos f :
  unit_range rnd ->
  In f FAULT_MODES ->
  f_param f <> wall_thickness ->
  pt_anomaly (fst (generatePoint rnd t (Some f) pos)) (f_param f) = true.
Proof.
  intros H Hin Hw.
  destruct (generatePoint_fields rnd t (Some f) pos (f_param f)) as [_ E].
  cbv zeta in E. rewrite E. apply out_of_control_iff.
  assert (B : forall n, 0 <= rnd n /\ rnd n < 1) by exact H.
  unfold FAULT_MODES in Hin. cbn [In] in Hin.
  destruct Hin as [<-|[<-|[<-|[<-|[<-|[<-|[]]]]]]];
    try (exfalso; apply Hw; reflexivity);
    unfold raw_reading, raw_val;
    cbn [f_param f_delta die_wear screw_slip temp_spike pressure_surge
         line_slowdown thin_wall key_eqb fst PARAMS mean std ucl lcl];
    match goal with
    | |- context [rnd (S ?n)] =>
        pose proof (B n) as [? ?]; pose proof (B (S n)) as [? ?]
    end;
    (left; lra) || (right; lra).
Qed.



(** ** Fault isolation *)

Lemma stored_driver_far (k : key) (raw : Q) :
  (raw <= mean (PARAMS k) - (17 # 10) * std (PARAMS k) ->
   toFixed 3 raw <= mean (PARAMS k) - (17 # 10) * std (PARAMS k)) /\
  (mean (PARAMS k) + (17 # 10) * std (PARAMS k) <= raw ->
   mean (PARAMS k) + (17 # 10) * std (PARAMS k) <= toFixed 3 raw).
Proof.
  assert (G : exists a b : Z,
             mean (PARAMS k) - (17 # 10) * std (PARAMS k) == a # pow10 3 /\
             mean (PARAMS k) + (17 # 10) * std (PARAMS k) == b # pow10 3).
  { destruct k;
      [exists 194900%Z, 205100%Z | exists 81600%Z, 88400%Z
      |exists 266400%Z, 293600%Z | exists 42450%Z, 47550%Z
      |exists 171500%Z, 188500%Z | exists 1115%Z, 1285%Z];
      split; reflexivity. }
  destruct G as [a [b [Ea Eb]]]. rewrite Ea, Eb.
  split; [apply toFixed_below_grid | apply toFixed_above_grid].
Qed.

Lemma sq_far p k v :
  pt_val p k = Some v ->
  v <= mean (PARAMS k) - (17 # 10) * std (PARAMS k)
  \/ mean (PARAMS k) + (17 # 10) * std (PARAMS k) <= v ->
  289 # 100 <= sq p k.
Proof.
  intros E H. unfold sq, zq. rewrite E.
  set (z := (v - mean (PARAMS k)) / std (PARAMS k)).
  assert (Ez : z * std (PARAMS k) == v - mean (PARAMS k)).
  { unfold z. field. destruct k; discriminate. }
  assert (Hz : z <= - (17 # 10) \/ 17 # 10 <= z).
  { clearbody z.
    destruct H as [H | H]; [left | right];
      destruct k; cbn [PARAMS mean std] in *; lra. }
  clearbody z. destruct Hz; nra.
Qed.

Lemma rbc_pairs_contribution_pairs p :
  complete p -> rbc_pairs p = contribution_pairs p.
Proof.
  intro Hc. rewrite rbc_pairs_unsorted, contribution_pairs_unsorted.
  f_equal. apply map_ext. intro k.
  now rewrite rbc_of_complete, contribution_of_complete.
Qed.

Lemma keys_nodup : NoDup PARAM_KEYS.
Proof.
  unfold PARAM_KEYS.
  repeat (constructor; [cbn [In]; intuition discriminate|]).
  constructor.
Qed.

(** Fault isolation: on every snapshot biased by a catalog fault the
    driver of the fault heads the contribution ranking, with a value of
    at least 2.89 against at most 1 for every other parameter, and it
    heads the RBC ranking as well. *)
Theorem driver_tops_ranking rnd t pos f :
  unit_range rnd ->
  In f FAULT_MODES ->
  let pt := fst (generatePoint rnd t (Some f) pos) in
  exists c rest,
    computeContributions pt = c :: rest /\
    c_key c = f_param f /\
    289 # 100 <= valq c /\
    (forall c', In c' rest -> valq c' <= 1) /\
    exists rest', rbc_pairs pt = (f_param f, c_value c) :: rest'.
Proof.
  intros H Hin pt.
  assert (Hc : complete pt) by apply generatePoint_complete.
  assert (Hd : 289 # 100 <= valq (contribution_of pt (f_param f))).
  { unfold valq. rewrite contribution_of_complete by exact Hc.
    assert (E : 289 # 100 == 28900 # pow10 4) by reflexivity.
    rewrite E. apply toFixed_above_grid. rewrite <- E.
    destruct (generatePoint_fields rnd t (Some f) pos (f_param f)) as [Ev _].
    fold pt in Ev. apply (sq_far pt _ _ Ev).
    destruct (stored_driver_far (f_param f)
                (raw_reading rnd (Some f) pos (f_param f))) as [S1 S2].
    destruct (raw_driver_far rnd f pos H Hin) as [[_ R] | [_ R]];
      [left; apply S1, R | right; apply S2, R]. }
  assert (Ho : forall k, k <> f_param f -> valq (contribution_of pt k) <= 1).
  { intros k Hk. unfold valq. rewrite contribution_of_complete by exact Hc.
    assert (E : 1 == 10000 # pow10 4) by reflexivity.
    rewrite E. apply toFixed_below_grid. rewrite <- E.
    destruct (generatePoint_fields rnd t (Some f) pos k) as [Ev _].
    fold pt in Ev.
    destruct (raw_in_band_other rnd f pos k H Hk) as [Hlo Hhi].
    apply (sq_in_band pt k _ Ev); apply stored_in_band; lra. }
  assert (P : Permutation (computeContributions pt)
                          (map (contribution_of pt) PARAM_KEYS))
    by apply sort_perm.
  assert (Hs : StronglySorted (fun a b => valq b <= valq a)
                              (computeContributions pt)).
  { rewrite (computeContributions_by_score pt Hc). apply (sort_sorted valq). }
  assert (Hof : forall c, In c (computeContributions pt) ->
                          c = contribution_of pt (c_key c)).
  { intros c Hc'. apply (Permutation_in _ P) in Hc'.
    apply in_map_iff in Hc'. now destruct Hc' as [k [<- _]]. }
  assert (Hind : In (contribution_of pt (f_param f)) (computeContributions pt)).
  { apply (Permutation_in _ (Permutation_sym P)). apply in_map.
    destruct (f_param f); cbn; tauto. }
  assert (Hnd : NoDup (map c_key (computeContributions pt))).
  { apply (Permutation_NoDup (l := PARAM_KEYS)); [|exact keys_nodup].
    apply Permutation_sym. rewrite (Permutation_map c_key P), map_map.
    rewrite (map_ext _ (fun k => k)) by reflexivity. now rewrite map_id. }
  destruct (computeContributions pt) as [|c rest] eqn:Ecs;
    [destruct Hind|].
  inversion Hs as [|? ? Hs' Hall]; subst.
  inversion Hnd as [|? ? Hnotin _]; subst.
  assert (Hk : c_key c = f_param f).
  { destruct Hind as [E | Hr]; [rewrite E; reflexivity|].
    destruct (key_eqb (c_key c) (f_param f)) eqn:Ek;
      [now apply key_eqb_eq|].
    assert (Hne : c_key c <> f_param f)
      by (intro E; rewrite E, key_eqb_refl in Ek; discriminate).
    rewrite Forall_forall in Hall. specialize (Hall _ Hr).
    pose proof (Ho _ Hne) as Hle.
    rewrite <- (Hof c (or_introl eq_refl)) in Hle. lra. }
  exists c, rest. split; [reflexivity|]. split; [exact Hk|].
  split; [|split].
  - rewrite (Hof c (or_introl eq_refl)), Hk. exact Hd.
  - intros c' Hc'. rewrite (Hof c' (or_intror Hc')). apply Ho.
    intro E. apply Hnotin. rewrite Hk, <- E. now apply in_map.
  - rewrite (rbc_pairs_contribution_pairs pt Hc).
    unfold contribution_pairs. rewrite Ecs. cbn [map]. rewrite Hk.
    now eexists.
Qed.

Lemma driver_tops_ranking_witness :
  exists c rest,
    computeContributions (fst (generatePoint rnd_half 1 (Some thin_wall) 0))
    = c :: rest /\ c_key c = wall_thickness.
Proof.
  assert (H : unit_range rnd_half)
    by (intro n; split; [discriminate | reflexivity]).
  assert (Hin : In thin_wall FAULT_MODES) by (do 5 right; left; reflexivity).
  destruct (driver_tops_ranking rnd_half 1 0 thin_wall H Hin)
    as [c [rest [E [Hk _]]]].
  exists c, rest. split; assumption.
Defined.

(** ** Flags against stored figures *)

Lemma limits_on_grid k :
  exists a b : Z,
    ucl (PARAMS k) == a # pow10 3 /\ lcl (PARAMS k) == b # pow10 3.
Proof.
  destruct k;
    [exists 209000%Z, 191000%Z | exists 91000%Z, 79000%Z
    |exists 304000%Z, 256000%Z | exists 49500%Z, 40500%Z
    |exists 195000%Z, 165000%Z | exists 1350%Z, 1050%Z];
    split; reflexivity.
Qed.

(** In every snapshot of [generatePoint] a flag and the figure stored
    next to it can disagree only when the figure sits exactly on the
    limit: a stored reading strictly outside the control limits is
    flagged, a flagged reading is stored on or outside a limit, and the
    same holds for the stored [t2] against 12.6. *)
Theorem flags_agree_off_limits rnd t activeFault pos :
  let pt := fst (generatePoint rnd t activeFault pos) in
  (forall k, exists v,
      pt_val pt k = Some v /\
      (out_of_control (PARAMS k) v = true -> pt_anomaly pt k = true) /\
      (pt_anomaly pt k = true ->
       ucl (PARAMS k) <= v \/ v <= lcl (PARAMS k))) /\
  exists q,
    pt_t2 pt = Fin q /\
    (T2_UCL < q -> pt_t2_anomaly pt = true) /\
    (pt_t2_anomaly pt = true -> T2_UCL <= q).
Proof.
  intro pt. split.
  - intro k. destruct (generatePoint_fields rnd t activeFault pos k) as [Ev Ef].
    fold pt in Ev, Ef. set (raw := raw_reading rnd activeFault pos k) in *.
    exists (toFixed 3 raw). split; [exact Ev|].
    destruct (limits_on_grid k) as [a [b [Ea Eb]]].
    rewrite Ef, !out_of_control_iff, Ea, Eb. split.
    + intros [Hv | Hv].
      * left. apply Qnot_le_lt. intro L.
        apply (toFixed_below_grid 3 a raw) in L. lra.
      * right. apply Qnot_le_lt. intro L.
        apply (toFixed_above_grid 3 b raw) in L. lra.
    + intros [Hr | Hr].
      * left. apply toFixed_above_grid. lra.
      * right. apply toFixed_below_grid. lra.
  - assert (Hc : complete pt) by apply generatePoint_complete.
    destruct (generatePoint_t2 rnd t activeFault pos) as [E2 E3].
    fold pt in E2, E3. rewrite (t2_full_complete pt Hc) in E2, E3.
    exists (toFixed 3 (t2q pt)). split; [exact E2|].
    assert (E : T2_UCL == 12600 # pow10 3) by reflexivity.
    rewrite E3. cbn [gtb]. rewrite Qltb_lt, E. split.
    + intro Hq. apply Qnot_le_lt. intro L.
      apply (toFixed_below_grid 3 12600 (t2q pt)) in L. lra.
    + intro Hr. apply toFixed_above_grid. lra.
Qed.

(** ** Invariants of the controller *)

Lemma consecutive_app a l x :
  consecutive_from a l -> x = (a + Z.of_nat (List.length l))%Z ->
  consecutive_from a (l ++ [x]).
Proof.
  revert a. induction l as [|y l IH]; intros a H E; cbn in *.
  - split; [lia | exact I].
  - destruct H as [-> H]. split; [reflexivity|]. apply IH; [exact H | lia].
Qed.

Lemma consecutive_skipn k : forall a l,
  consecutive_from a l -> consecutive_from (a + Z.of_nat k) (skipn k l).
Proof.
  induction k as [|k IH]; intros a l H.
  - cbn [skipn]. now replace (a + Z.of_nat 0)%Z with a by lia.
  - destruct l as [|x l]; [exact I|]. cbn [skipn]. destruct H as [_ H].
    replace (a + Z.of_nat (S k))%Z with (a + 1 + Z.of_nat k)%Z by lia.
    now apply IH.
Qed.

Lemma newAlarms_t t pt : Forall (fun a => a_t a = t) (newAlarms t pt).
Proof.
  rewrite newAlarms_eq. apply Forall_app. split.
  - apply Forall_forall. intros a Ha. apply in_map_iff in Ha.
    destruct Ha as [k [<- _]]. unfold param_alarm.
    now destruct (fmt (pt_val pt k) (unit (PARAMS k))).
  - destruct (pt_t2_anomaly pt); repeat constructor.
Qed.

Lemma in_firstn {A : Type} (x : A) n : forall l,
  In x (firstn n l) -> In x l.
Proof.
  induction n as [|n IH]; intros l H; [destruct H|].
  destruct l as [|y l]; [destruct H|]. cbn [firstn] in H.
  destruct H as [-> | H]; [now left | right; now apply IH].
Qed.

Lemma sorted_firstn {A : Type} (R : A -> A -> Prop) n : forall l,
  StronglySorted R l -> StronglySorted R (firstn n l).
Proof.
  induction n as [|n IH]; intros l H; [constructor|].
  destruct l as [|x l]; [constructor|]. cbn [firstn].
  inversion H as [|? ? Hs Hx]; subst. constructor; [now apply IH|].
  apply Forall_forall. intros y Hy. rewrite Forall_forall in Hx.
  apply Hx. now apply (in_firstn y n).
Qed.

Lemma Forall_firstn_keep {A : Type} (P : A -> Prop) n (l : list A) :
  Forall P l -> Forall P (firstn n l).
Proof.
  intro H. apply Forall_forall. intros y Hy. rewrite Forall_forall in H.
  apply H. now apply (in_firstn y n).
Qed.

Lemma sorted_prepend t (news old : list alarm) :
  Forall (fun a => a_t a = t) news ->
  Forall (fun a => (a_t a <= t)%Z) old ->
  StronglySorted (fun a b => (a_t b <= a_t a)%Z) old ->
  StronglySorted (fun a b => (a_t b <= a_t a)%Z) (news ++ old).
Proof.
  intros Hn Ho Hs. induction Hn as [|x news Hx Hn IH]; [exact Hs|].
  cbn [app]. constructor; [exact IH|].
  apply Forall_app. split.
  - eapply Forall_impl; [|exact Hn]. cbn. intros a Ha. lia.
  - eapply Forall_impl; [|exact Ho]. cbn. intros a Ha. lia.
Qed.

Section InvariantFacts.
Variable rnd : nat -> Q.

Lemma initial_inv : controller_inv initial.
Proof. split; cbn; try reflexivity; try lia; constructor. Qed.

Lemma tick_inv s : controller_inv s -> (0 <= tRef s)%Z ->
  controller_inv (tick rnd s).
Proof.
  intros [I1 I2 I3 I4 I5 I6 I7 I8] H0.
  assert (Hpt : pt_t (fst (tick_point rnd s)) = (tRef s + 1)%Z).
  { rewrite tick_point_eq. apply generatePoint_t. }
  assert (Hlen : List.length (data (tick rnd s))
                 = Nat.min 120 (S (List.length (data s)))).
  { rewrite tick_data, slice_last_length, length_app. cbn [List.length].
    f_equal. lia. }
  split.
  - now rewrite tick_tickCount, tick_tRef.
  - rewrite tick_activeFault, tick_faultRef, countdown_activeFault,
      countdown_faultRef, I2. reflexivity.
  - rewrite tick_faultCdRef, countdown_faultCdRef. rewrite tick_eq.
    cbn [tick_record faultCountdown].
    unfold tick_countdown.
    destruct (1 <? faultCdRef s)%Z, (faultCdRef s =? 1)%Z;
      cbn [faultCountdown]; try reflexivity; exact I3.
  - rewrite Hlen, tick_tRef. lia.
  - rewrite Hlen, tick_tRef, tick_data. unfold slice_last.
    rewrite <- skipn_map, map_app, length_app. cbn [List.length map].
    rewrite Hpt.
    set (n := List.length (data s)) in *.
    set (a := (tRef s - Z.of_nat n + 1)%Z) in *.
    replace (tRef s + 1 - Z.of_nat (Nat.min 120 (S n)) + 1)%Z
      with (a + Z.of_nat (n + 1 - 120))%Z by (unfold a; lia).
    apply consecutive_skipn. apply consecutive_app; [exact I5|].
    rewrite length_map. fold n. unfold a. lia.
  - rewrite tick_alarmLog. destruct (newAlarms _ _); [exact I6|].
    rewrite length_firstn. lia.
  - rewrite tick_alarmLog, tick_tRef.
    pose proof (newAlarms_t (tRef s + 1) (fst (tick_point rnd s))) as Hn.
    assert (Ho : Forall (fun a => (1 <= a_t a <= tRef s + 1)%Z) (alarmLog s)).
    { eapply Forall_impl; [|exact I7]. cbn. intros a Ha. lia. }
    destruct (newAlarms _ _) as [|a0 news]; [exact Ho|].
    apply Forall_firstn_keep, Forall_app. split; [|exact Ho].
    eapply Forall_impl; [|exact Hn]. cbn. intros a Ha. lia.
  - rewrite tick_alarmLog.
    pose proof (newAlarms_t (tRef s + 1) (fst (tick_point rnd s))) as Hn.
    destruct (newAlarms _ _) as [|a0 news]; [exact I8|].
    apply sorted_firstn, (sorted_prepend (tRef s + 1)); [exact Hn| |exact I8].
    eapply Forall_impl; [|exact I7]. cbn. intros a Ha. lia.
Qed.

Lemma step_inv s e :
  controller_inv s /\ (0 <= tRef s)%Z ->
  controller_inv (step rnd s e) /\ (0 <= tRef (step rnd s e))%Z.
Proof.
  intros [I H0]. destruct e; cbn [step].
  - split; [|exact H0]. destruct I. now split.
  - destruct (running s); [|now split].
    split; [now apply tick_inv | rewrite tick_tRef; lia].
  - destruct (running s); [|now split].
    split; [|exact H0]. destruct I. now split.
  - split; [|cbn; lia]. split; cbn; try reflexivity; try lia; constructor.
Qed.

Lemma run_inv es : forall s,
  controller_inv s /\ (0 <= tRef s)%Z ->
  controller_inv (run rnd s es) /\ (0 <= tRef (run rnd s es))%Z.
Proof.
  induction es as [|e es IH]; intros s H; [exact H|].
  cbn [run fold_left]. apply IH. now apply step_inv.
Qed.
End InvariantFacts.

(** ** Reachable states *)

Lemma consecutive_nth a l : forall i x,
  consecutive_from a l -> nth_error l i = Some x ->
  x = (a + Z.of_nat i)%Z.
Proof.
  revert a. induction l as [|y l IH]; intros a i x H E.
  - destruct i; discriminate.
  - destruct H as [-> H]. destruct i as [|i].
    + cbn in E. injection E as <-. lia.
    + cbn [nth_error] in E. rewrite (IH _ _ _ H E). lia.
Qed.

Section Reachable.
Variable rnd : nat -> Q.

(** Sequence indices: in every reachable state the tick counter shown
    equals the internal counter, the window holds [min(120, tickCount)]
    snapshots, and their indices are the consecutive integers that end
    at the tick counter. *)
Theorem history_indices (es : list event) :
  let s := run rnd initial es in
  let n := List.length (data s) in
  tickCount s = tRef s /\
  (0 <= tickCount s)%Z /\
  Z.of_nat n = Z.min 120 (tickCount s) /\
  consecutive_from (tickCount s - Z.of_nat n + 1) (map pt_t (data s)).
Proof.
  intros s n.
  destruct (run_inv rnd es initial (conj initial_inv (Z.le_refl 0)))
    as [[I1 _ _ I4 I5 _ _ _] H0].
  fold s in I1, I4, I5, H0. fold n in I4, I5. rewrite I1. tauto.
Qed.

(** The alarm log of a reachable state has at most 80 entries, every
    entry carries a tick between 1 and the tick counter, and the entries
    run from the most recent tick to the oldest. *)
Theorem alarm_log_bounded_ordered (es : list event) :
  let s := run rnd initial es in
  (totalAlarms s <= 80)%nat /\
  Forall (fun a => (1 <= a_t a <= tickCount s)%Z) (alarmLog s) /\
  StronglySorted (fun a b => (a_t b <= a_t a)%Z) (alarmLog s).
Proof.
  intro s.
  destruct (run_inv rnd es initial (conj initial_inv (Z.le_refl 0)))
    as [[I1 _ _ _ _ I6 I7 I8] _].
  fold s in I1, I6, I7, I8. rewrite I1. tauto.
Qed.

(** The React state that the banner shows mirrors the refs that [tick]
    works on: same active fault, same countdown. *)
Theorem display_mirrors_refs (es : list event) :
  let s := run rnd initial es in
  activeFault s = faultRef s /\ faultCountdown s = faultCdRef s.
Proof.
  intro s.
  destruct (run_inv rnd es initial (conj initial_inv (Z.le_refl 0)))
    as [[_ I2 I3 _ _ _ _ _] _].
  now split.
Qed.

(** The latest snapshot: there is none exactly when the tick counter is
    zero, and otherwise it is the snapshot of the tick that the counter
    shows. *)
Theorem latest_is_current_tick (es : list event) :
  let s := run rnd initial es in
  match latest s with
  | None => tickCount s = 0%Z /\ latestT2 s = Fin 0 /\ isAnomalous s = false
  | Some p => pt_t p = tickCount s /\ (1 <= tickCount s)%Z
  end.
Proof.
  intro s.
  destruct (run_inv rnd es initial (conj initial_inv (Z.le_refl 0)))
    as [[I1 _ _ I4 I5 _ _ _] H0].
  fold s in I1, I4, I5, H0.
  unfold latestT2, isAnomalous, latest, last_of.
  destruct (data s) as [|p0 l] eqn:E.
  - cbn in I4. rewrite I1. repeat split. lia.
  - set (d := p0 :: l) in *.
    destruct (nth_error d (List.length d - 1)) as [p|] eqn:N.
    + assert (N' : nth_error (map pt_t d) (List.length d - 1) = Some (pt_t p))
        by (rewrite nth_error_map, N; reflexivity).
      rewrite (consecutive_nth _ _ _ _ I5 N'), I1.
      assert (1 <= List.length d)%nat by (unfold d; cbn; lia). lia.
    + apply nth_error_None in N. unfold d in N. cbn in N. lia.
Qed.
End Reachable.

(** After a tick the latest snapshot is the one the tick generated. *)
Theorem latest_after_tick rnd (s : state) :
  latest (tick rnd s) = Some (fst (tick_point rnd s)).
Proof.
  unfold latest, last_of. rewrite tick_data.
  set (pt := fst (tick_point rnd s)).
  set (d := slice_last 120 (data s ++ [pt])).
  assert (Hd : exists l, d = l ++ [pt]).
  { unfold d, slice_last. rewrite length_app. cbn [List.length].
    rewrite skipn_app.
    replace (List.length (data s) + 1 - 120 - List.length (data s))%nat
      with 0%nat by lia.
    now eexists. }
  destruct Hd as [l ->].
  destruct (l ++ [pt]) as [|x r] eqn:E; [now destruct l|].
  rewrite <- E, length_app. cbn [List.length].
  rewrite nth_error_app2 by lia.
  replace (List.length l + 1 - 1 - List.length l)%nat with 0%nat by lia.
  reflexivity.
Qed.

(** ** The alarm rate *)

Lemma filter_length_le {A : Type} (p : A -> bool) (l : list A) :
  (List.length (filter p l) <= List.length l)%nat.
Proof.
  induction l as [|x l IH]; [apply Nat.le_refl|].
  cbn [filter]. destruct (p x); cbn [List.length]; lia.
Qed.

(** The alarm rate is a percentage: zero on the empty window, and
    between 0 and 100 otherwise, 0 when no snapshot of the window is out
    of control and 100 when all are. *)
Theorem alarmRate_range (s : state) :
  0 <= alarmRate s <= 100 /\
  (filter pt_t2_anomaly (data s) = [] -> alarmRate s = 0) /\
  (data s <> [] -> filter pt_t2_anomaly (data s) = data s ->
   alarmRate s = 100).
Proof.
  unfold alarmRate.
  destruct (data s) as [|p l] eqn:E.
  - repeat split; try discriminate. intros H _. now elim H.
  - rewrite <- E.
    set (c := List.length (filter pt_t2_anomaly (data s))).
    set (n := List.length (data s)).
    assert (Hn : (1 <= n)%nat) by (unfold n; rewrite E; cbn; lia).
    assert (Hc : (c <= n)%nat) by apply filter_length_le.
    assert (Hnq : 0 < inject_Z (Z.of_nat n)).
    { change 0 with (inject_Z 0). rewrite <- Zlt_Qlt. lia. }
    assert (Hr : 0 <= inject_Z (Z.of_nat c) / inject_Z (Z.of_nat n) * 100
                 <= 100).
    { assert (H0 : 0 <= inject_Z (Z.of_nat c)).
      { change 0 with (inject_Z 0). rewrite <- Zle_Qle. lia. }
      assert (H1 : inject_Z (Z.of_nat c) <= inject_Z (Z.of_nat n)).
      { rewrite <- Zle_Qle. lia. }
      set (r := inject_Z (Z.of_nat c) / inject_Z (Z.of_nat n)).
      assert (Er : r * inject_Z (Z.of_nat n) == inject_Z (Z.of_nat c)).
      { unfold r. field. lra. }
      assert (0 <= r <= 1); [|lra]. split.
      - unfold r. apply Qle_shift_div_l; [exact Hnq|]. lra.
      - unfold r. apply Qle_shift_div_r; [exact Hnq|]. lra. }
    split; [|split].
    + split.
      * apply toFixed_nonneg. tauto.
      * pose proof (toFixed_below_grid 1 1000
                      (inject_Z (Z.of_nat c) / inject_Z (Z.of_nat n) * 100))
          as B.
        change (pow10 1) with 10%positive in B.
        assert (Hb : 1000 # 10 == 100) by reflexivity.
        rewrite Hb in B. apply B. tauto.
    + intro F. unfold c. rewrite F. cbn [List.length Z.of_nat].
      apply (toFixed_comp 1 _ 0). unfold Qdiv. ring.
    + intros _ F. unfold c. rewrite F. fold n.
      apply (toFixed_comp 1 _ 100). field. lra.
Qed.

(** ** The countdown in reachable states *)

Section CountdownFacts.
Variable rnd : nat -> Q.

Lemma catalog_duration f : In f FAULT_MODES -> (5 <= f_duration f <= 10)%Z.
Proof.
  unfold FAULT_MODES. cbn [In].
  intros [<-|[<-|[<-|[<-|[<-|[<-|[]]]]]]]; cbn; lia.
Qed.

Lemma tick_countdown_ok s : countdown_ok s -> countdown_ok (tick rnd s).
Proof.
  unfold countdown_ok.
  rewrite tick_faultRef, tick_faultCdRef, countdown_faultRef,
    countdown_faultCdRef.
  destruct (faultRef s) as [f|].
  - intros [Hin Hcd].
    destruct (1 <? faultCdRef s)%Z eqn:L.
    + apply Z.ltb_lt in L. split; [exact Hin | lia].
    + apply Z.ltb_ge in L.
      assert (E : (faultCdRef s =? 1)%Z = true) by (apply Z.eqb_eq; lia).
      now rewrite E.
  - intros ->. reflexivity.
Qed.

Lemma step_countdown_ok s e :
  (forall f, e = Inject f -> In f FAULT_MODES) ->
  countdown_ok s -> countdown_ok (step rnd s e).
Proof.
  intros He H. destruct e as [| |f|]; cbn [step].
  - exact H.
  - destruct (running s); [now apply tick_countdown_ok | exact H].
  - destruct (running s); [|exact H].
    unfold countdown_ok. cbn.
    pose proof (catalog_duration f (He f eq_refl)).
    split; [now apply He | lia].
  - reflexivity.
Qed.

Lemma run_countdown_ok es : forall s,
  injects_catalog es -> countdown_ok s -> countdown_ok (run rnd s es).
Proof.
  induction es as [|e es IH]; intros s Hc H; [exact H|].
  cbn [run fold_left]. apply IH.
  - intros f Hf. apply Hc. now right.
  - apply step_countdown_ok; [|exact H].
    intros f ->. apply Hc. now left.
Qed.

(** With faults injected from the catalog only, the countdown of a
    reachable state lies between 0 and 10; it is 0 exactly when no fault
    is active, and while a fault is active it is at least 1 and at most
    the duration of that fault. *)
Theorem countdown_tracks_fault (es : list event) :
  injects_catalog es ->
  let s := run rnd initial es in
  (0 <= faultCdRef s <= 10)%Z /\
  (faultRef s = None <-> faultCdRef s = 0%Z) /\
  (forall f, faultRef s = Some f ->
             In f FAULT_MODES /\ (1 <= faultCdRef s <= f_duration f)%Z).
Proof.
  intros Hc s.
  assert (H : countdown_ok s)
    by (apply run_countdown_ok; [exact Hc | reflexivity]).
  unfold countdown_ok in H. destruct (faultRef s) as [f|].
  - destruct H as [Hin Hcd]. pose proof (catalog_duration f Hin).
    split; [lia|]. split.
    + split; [discriminate | lia].
    + intros f' [= <-]. now split.
  - rewrite H. split; [lia|]. split; [tauto|]. discriminate.
Qed.
End CountdownFacts.

Lemma countdown_tracks_fault_witness :
  injects_catalog [Toggle; Inject temp_spike; Timer; Timer] /\
  (0 <= faultCdRef
          (run rnd_half initial [Toggle; Inject temp_spike; Timer; Timer])
   <= 10)%Z.
Proof.
  assert (H : injects_catalog [Toggle; Inject temp_spike; Timer; Timer]).
  { intros f [E | [E | [E | [E | []]]]]; try discriminate.
    injection E as <-. do 2 right. left. reflexivity. }
  split; [exact H|].
  exact (proj1 (countdown_tracks_fault rnd_half _ H)).
Defined.

(** ** The gauge of a parameter card *)

Lemma span_positive k : 0 < ucl (PARAMS k) - lcl (PARAMS k).
Proof. destruct k; reflexivity. Qed.

(** The gauge stays between 0 and 100 and stands at 50 when there is no
    reading.  For a reading other than zero it is pegged at 100 from the
    upper limit on and at 0 from the lower limit down, and follows the
    reading linearly in between, the mean sitting at 50. *)
Theorem card_pct_range (data : list point) (paramKey : key) :
  let cfg := PARAMS paramKey in
  let pct := card_pct data paramKey in
  0 <= pct <= 100 /\
  match card_val data paramKey with
  | None => pct = 50
  | Some val =>
      (val == 0 -> pct = 50) /\
      (~ val == 0 ->
       (ucl cfg <= val -> pct == 100) /\
       (val <= lcl cfg -> pct == 0) /\
       (lcl cfg <= val <= ucl cfg ->
        pct == (val - lcl cfg) / (ucl cfg - lcl cfg) * 100) /\
       (val == mean cfg -> pct == 50))
  end.
Proof.
  intros cfg pct. unfold pct, card_pct. fold cfg.
  destruct (card_val data paramKey) as [val|];
    [|split; [split; discriminate | reflexivity]].
  pose proof (span_positive paramKey) as Hs. fold cfg in Hs.
  set (r := (val - lcl cfg) / (ucl cfg - lcl cfg) * 100).
  assert (Er : r * (ucl cfg - lcl cfg) == (val - lcl cfg) * 100).
  { unfold r. field. lra. }
  destruct (Qeq_bool val 0) eqn:Z.
  - apply Qeq_bool_eq in Z. split; [split; discriminate|].
    split; [reflexivity|]. intro N. contradiction.
  - apply Qeq_bool_neq in Z.
    set (m := Qmax 0 r). set (g := Qmin 100 m).
    assert (Hm : (0 <= r /\ m == r) \/ (r <= 0 /\ m == 0)).
    { unfold m. destruct (Q.max_spec_le 0 r) as [[M1 M2] | [M1 M2]]; tauto. }
    assert (Hg : (100 <= m /\ g == 100) \/ (m <= 100 /\ g == m)).
    { unfold g. destruct (Q.min_spec_le 100 m) as [[N1 N2] | [N1 N2]]; tauto. }
    assert (Hmean : val == mean cfg ->
                    (val - lcl cfg) * 100 == 50 * (ucl cfg - lcl cfg)).
    { intro E. rewrite E. subst cfg.
      destruct paramKey; reflexivity. }
    clearbody g m r.
    split; [destruct Hm as [[? ?]|[? ?]], Hg as [[? ?]|[? ?]]; split; lra|].
    split; [intro; contradiction|]. intros _.
    split; [|split; [|split]].
    + intro H. assert (100 <= r) by nra.
      destruct Hm as [[? ?]|[? ?]], Hg as [[? ?]|[? ?]]; lra.
    + intro H. assert (r <= 0) by nra.
      destruct Hm as [[? ?]|[? ?]], Hg as [[? ?]|[? ?]]; lra.
    + intros [H1 H2]. assert (0 <= r <= 100) by (split; nra).
      destruct Hm as [[? ?]|[? ?]], Hg as [[? ?]|[? ?]]; lra.
    + intro H. apply Hmean in H. assert (r == 50) by nra.
      destruct Hm as [[? ?]|[? ?]], Hg as [[? ?]|[? ?]]; lra.
Qed.

(** ** The bars of the contribution panel *)

Lemma maxVal_finite (l : list contribution) :
  (forall c, In c l -> exists q, c_value c = Fin q) ->
  exists m, maxVal l = Fin m /\ 1 <= m /\
            forall c, In c l -> valq c <= m.
Proof.
  induction l as [|c l IH]; intro H.
  - exists 1. split; [reflexivity|]. split; [lra|]. intros c [].
  - destruct IH as [m [E [H1 Hle]]]; [intros; apply H; now right|].
    destruct (H c (or_introl eq_refl)) as [q Hq].
    exists (Qmax q m). cbn [maxVal fold_right]. fold (maxVal l).
    rewrite E, Hq. split; [reflexivity|].
    pose proof (Q.le_max_l q m). pose proof (Q.le_max_r q m).
    split; [lra|]. intros c' [<- | Hc'].
    + unfold valq. now rewrite Hq.
    + specialize (Hle c' Hc'). lra.
Qed.



(** ** A reading that is missing *)

Lemma add_NaN_absorbs {A : Type} (f : A -> num) (l : list A) :
  fold_left (fun s x => add s (f x)) l NaN = NaN.
Proof. induction l as [|x l IH]; [reflexivity | exact IH]. Qed.

Lemma add_NaN_member {A : Type} (f : A -> num) (l : list A) (x : A) a :
  In x l -> f x = NaN -> fold_left (fun s x => add s (f x)) l a = NaN.
Proof.
  revert a. induction l as [|y l IH]; intros a Hin Hx; [destruct Hin|].
  cbn [fold_left]. destruct Hin as [-> | Hin].
  - rewrite Hx. replace (add a NaN) with NaN by now destruct a.
    apply add_NaN_absorbs.
  - now apply IH.
Qed.

Lemma zscore_missing p k : pt_val p k = None -> zscore p k = NaN.
Proof. intro H. unfold zscore. now rewrite H. Qed.

Lemma contribution_value_NaN p k :
  c_value (contribution_of p k) = NaN <-> pt_val p k = None.
Proof.
  split.
  - intro H. destruct (pt_val p k) as [v|] eqn:E; [|reflexivity].
    assert (Hk : pt_val p k <> None) by (rewrite E; discriminate).
    unfold contribution_of in H. cbn [c_value] in H.
    rewrite (zscore_complete p k Hk) in H. discriminate.
  - intro H. unfold contribution_of. cbn [c_value].
    now rewrite (zscore_missing p k H).
Qed.

Lemma key_listed k : In k PARAM_KEYS.
Proof. destruct k; cbn; tauto. Qed.

(** A missing reading is not reported: it turns into NaN.  In the
    contributions the NaN stays with the parameters whose reading is
    missing, while every RBC becomes NaN, and so do the sum of the
    contributions and the scale of the contribution chart; the diagnosis
    then normalizes by 1. *)
Theorem missing_reading_becomes_NaN (p : point) (k0 : key) :
  pt_val p k0 = None ->
  (forall c, In c (computeContributions p) ->
             (c_value c = NaN <-> pt_val p (c_key c) = None)) /\
  (forall r, In r (computeRBC p) -> r_rbc r = NaN) /\
  sum_values (computeContributions p) = NaN /\
  maxVal (computeContributions p) = NaN /\
  total_of (computeContributions p) = Fin 1.
Proof.
  intro H0.
  assert (P : Permutation (computeContributions p)
                          (map (contribution_of p) PARAM_KEYS))
    by apply sort_perm.
  assert (Hin0 : In (contribution_of p k0) (computeContributions p)).
  { apply (Permutation_in _ (Permutation_sym P)), in_map, key_listed. }
  assert (Hs : sum_values (computeContributions p) = NaN).
  { apply (add_NaN_member c_value _ _ _ Hin0).
    now apply contribution_value_NaN. }
  split; [|split; [|split; [|split]]].
  - intros c Hin. apply (Permutation_in _ P) in Hin.
    apply in_map_iff in Hin. destruct Hin as [k [<- _]].
    apply contribution_value_NaN.
  - intros r Hin.
    apply (Permutation_in _ (sort_perm _ (map (rbc_of p) PARAM_KEYS))) in Hin.
    apply in_map_iff in Hin. destruct Hin as [k [<- _]].
    unfold rbc_of. cbn [r_rbc].
    assert (E : t2_full p = NaN).
    { unfold t2_full.
      apply (add_NaN_member (fun k => mul (zscore p k) (zscore p k))
               PARAM_KEYS k0 (Fin 0) (key_listed k0)).
      now rewrite (zscore_missing p k0 H0). }
    now rewrite E.
  - exact Hs.
  - revert Hin0. generalize (computeContributions p) as l.
    induction l as [|c l IH]; intro Hin; [destruct Hin|].
    destruct Hin as [E | Hin].
    + cbn [maxVal fold_right]. rewrite E.
      now rewrite (proj2 (contribution_value_NaN p k0) H0).
    + cbn [maxVal fold_right]. fold (maxVal l). rewrite (IH Hin).
      now destruct (c_value c).
  - unfold total_of. now rewrite Hs.
Qed.

Lemma missing_reading_becomes_NaN_witness :
  pt_val partial barrel_temp = None /\
  forall r, In r (computeRBC partial) -> r_rbc r = NaN.
Proof.
  split; [reflexivity|].
  apply (missing_reading_becomes_NaN partial barrel_temp). reflexivity.
Defined.

(** ** The signature comparison *)

Lemma norm_fold_other total (l : list contribution) k :
  ~ In k (map c_key l) ->
  forall norm0 : key -> option num,
    fold_left (fun norm c => set norm (c_key c) (Some (div (c_value c) total)))
              l norm0 k = norm0 k.
Proof.
  induction l as [|c l IH]; intros Hk norm0; [reflexivity|].
  cbn [fold_left]. rewrite IH by (intro H; apply Hk; now right).
  unfold set. destruct (key_eqb k (c_key c)) eqn:E; [|reflexivity].
  apply key_eqb_eq in E. elim Hk. left. now symmetry.
Qed.

Lemma norm_fold_member total (l : list contribution) c :
  NoDup (map c_key l) -> In c l ->
  forall norm0 : key -> option num,
    fold_left (fun norm c => set norm (c_key c) (Some (div (c_value c) total)))
              l norm0 (c_key c) = Some (div (c_value c) total).
Proof.
  induction l as [|y l IH]; intros Hnd Hin norm0; [destruct Hin|].
  cbn [map] in Hnd. inversion Hnd as [|? ? Hy Hnd']; subst.
  cbn [fold_left]. destruct Hin as [-> | Hin].
  - rewrite norm_fold_other by exact Hy. unfold set.
    now rewrite key_eqb_refl.
  - now apply IH.
Qed.

Lemma find_member (l : list contribution) c :
  NoDup (map c_key l) -> In c l ->
  find (fun x => key_eqb (c_key x) (c_key c)) l = Some c.
Proof.
  induction l as [|y l IH]; intros Hnd Hin; [destruct Hin|].
  cbn [map] in Hnd. inversion Hnd as [|? ? Hy Hnd']; subst.
  cbn [find]. destruct Hin as [-> | Hin].
  - now rewrite key_eqb_refl.
  - destruct (key_eqb (c_key y) (c_key c)) eqn:E; [|now apply IH].
    apply key_eqb_eq in E. elim Hy. rewrite E. now apply in_map.
Qed.

Lemma contributions_keys_nodup p : NoDup (map c_key (computeContributions p)).
Proof.
  apply (Permutation_NoDup (l := PARAM_KEYS)); [|exact keys_nodup].
  apply Permutation_sym. unfold computeContributions.
  rewrite (Permutation_map c_key (sort_perm _ _)), map_map.
  rewrite (map_ext _ (fun k => k)) by reflexivity. now rewrite map_id.
Qed.

Lemma contribution_listed p k :
  In (contribution_of p k) (computeContributions p).
Proof.
  unfold computeContributions.
  apply (Permutation_in _ (Permutation_sym (sort_perm _ _))).
  apply in_map, key_listed.
Qed.

Lemma observed_contribution p k :
  observed (computeContributions p) k =
  match mul (div (c_value (contribution_of p k))
                 (total_of (computeContributions p))) (Fin 100) with
  | Fin q => q
  | NaN => 0
  end.
Proof.
  unfold observed.
  pose proof (find_member _ (contribution_of p k)
                (contributions_keys_nodup p) (contribution_listed p k)) as F.
  change (c_key (contribution_of p k)) with k in F. now rewrite F.
Qed.

(** The observed shares that the signature comparison displays are, on
    any snapshot, one hundred times the normalized vector that
    [diagnoseFault] scores; on a snapshot with all its readings and a
    non-zero sum of contributions they add up to 100, as the expected
    shares of every catalog fault do. *)
Theorem observed_matches_engine (p : point) :
  let cs := computeContributions p in
  (forall k, observed cs k == or0 (norm_of cs k) * 100) /\
  (complete p ->
   (exists s, sum_values cs = Fin s /\ ~ s == 0) ->
   qsum (map (observed cs) PARAM_KEYS) == 100) /\
  Forall (fun d => qsum (map (expected d) PARAM_KEYS) == 100) FAULT_MODES.
Proof.
  intro cs. split; [|split; [|repeat constructor]].
  - intro k. unfold cs. rewrite observed_contribution. unfold norm_of.
    pose proof (norm_fold_member (total_of (computeContributions p)) _
                  (contribution_of p k) (contributions_keys_nodup p)
                  (contribution_listed p k) (fun _ => None)) as F.
    change (c_key (contribution_of p k)) with k in F. rewrite F.
    cbn [or0].
    destruct (div (c_value (contribution_of p k))
                  (total_of (computeContributions p))) as [q|];
      cbn [mul lift2]; [reflexivity | ring].
  - intros Hc [s [Es Hs]].
    destruct (contributions_sum p Hc) as [s' [Es' Eq]].
    fold cs in Es'. rewrite Es in Es'. injection Es' as <-.
    assert (Et : total_of cs = Fin s).
    { unfold total_of, or_else. rewrite Es. cbn [truthy].
      destruct (Qeq_bool s 0) eqn:Z; [|reflexivity].
      apply Qeq_bool_eq in Z. contradiction. }
    assert (Eo : forall k, observed cs k == toFixed 4 (sq p k) / s * 100).
    { intro k. unfold cs. rewrite observed_contribution. fold cs.
      rewrite Et, contribution_of_complete by exact Hc. cbn [div].
      destruct (Qeq_bool s 0) eqn:Z;
        [apply Qeq_bool_eq in Z; contradiction|].
      reflexivity. }
    cbn [qsum map fold_right PARAM_KEYS] in *.
    rewrite !Eo. field_simplify_eq; [|exact Hs]. rewrite Eq. ring.
Qed.

Lemma observed_matches_engine_witness :
  qsum (map (observed (computeContributions sample)) PARAM_KEYS) == 100.
Proof.
  assert (Hc : complete sample) by (intro k; destruct k; discriminate).
  apply (proj1 (proj2 (observed_matches_engine sample)) Hc).
  exists (13 # 4). split; [reflexivity | discriminate].
Defined.

(** ** The diagnosis depends on the direction of the vector only *)

Section ScaleFacts.
Variable sqrt : Q -> Q.
Hypothesis sqrt_comp : respects_Qeq sqrt.
Variable a : Q.
Hypothesis a_pos : 0 < a.

Lemma accumulate_comp f (n n' : key -> option num) (l : list key) :
  (forall k, or0 (n' k) == or0 (n k)) ->
  forall acc acc' : Q * Q * Q,
    fst (fst acc') == fst (fst acc) ->
    snd (fst acc') == snd (fst acc) ->
    snd acc' == snd acc ->
    let r := fold_left (accumulate f n) l acc in
    let r' := fold_left (accumulate f n') l acc' in
    fst (fst r') == fst (fst r) /\ snd (fst r') == snd (fst r)
    /\ snd r' == snd r.
Proof.
  intro Hn. induction l as [|k l IH]; intros acc acc' H1 H2 H3.
  - cbn. tauto.
  - cbn [fold_left]. apply IH;
      destruct acc as [[d mf] mo], acc' as [[d' mf'] mo'];
      cbn [accumulate fst snd] in *; rewrite ?(Hn k), ?H1, ?H2, ?H3;
      reflexivity.
Qed.

Lemma score_of_comp f (n n' : key -> option num) :
  (forall k, or0 (n' k) == or0 (n k)) ->
  score_of sqrt n' f = score_of sqrt n f.
Proof.
  intro Hn. unfold score_of.
  pose proof (accumulate_comp f n n' PARAM_KEYS Hn (0, 0, 0) (0, 0, 0)
                (Qeq_refl _) (Qeq_refl _) (Qeq_refl _)) as H.
  cbv zeta in H.
  destruct (fold_left (accumulate f n) PARAM_KEYS (0, 0, 0))
    as [[d mf] mo].
  destruct (fold_left (accumulate f n') PARAM_KEYS (0, 0, 0))
    as [[d' mf'] mo'].
  cbn [fst snd] in H. destruct H as [H1 [H2 H3]].
  f_equal. apply toFixed_comp. cbn [truthy].
  rewrite (Qeqb_comp _ _ H2 0 0 (Qeq_refl 0)).
  rewrite (Qeqb_comp _ _ H3 0 0 (Qeq_refl 0)).
  destruct (negb (Qeq_bool mf 0) && negb (Qeq_bool mo 0)); [|reflexivity].
  rewrite H1, (sqrt_comp _ _ H2), (sqrt_comp _ _ H3). reflexivity.
Qed.

Lemma sum_scaled (cs : list contribution) :
  nonneg_values cs ->
  forall b b', 0 <= b -> b' == a * b ->
  exists s s',
    fold_left (fun s c => add s (c_value c)) cs (Fin b) = Fin s /\
    fold_left (fun s c => add s (c_value c)) (scale_values a cs) (Fin b')
    = Fin s' /\
    s' == a * s /\ b <= s /\
    forall c, In c cs -> valq c <= s - b.
Proof.
  induction cs as [|c cs IH]; intros Hv b b' Hb Eb.
  - exists b, b'. repeat split; try assumption; try lra. intros c [].
  - destruct (Hv c (or_introl eq_refl)) as [q [Eq Hq]].
    destruct (IH (fun c' H => Hv c' (or_intror H)) (b + q) (b' + a * q))
      as [s [s' [E1 [E2 [E3 [E4 E5]]]]]]; [lra | rewrite Eb; ring |].
    exists s, s'. cbn [scale_values map fold_left c_value].
    rewrite Eq. cbn [add mul lift2].
    split; [exact E1|]. split; [exact E2|]. split; [exact E3|].
    split; [lra|]. intros c' [<- | Hc'].
    + unfold valq. rewrite Eq. lra.
    + specialize (E5 c' Hc'). lra.
Qed.

Lemma norm_scaled (cs : list contribution) (s s' : Q) :
  nonneg_values cs -> ~ s == 0 -> s' == a * s ->
  forall n n' : key -> option num,
    (forall k, or0 (n' k) == or0 (n k)) ->
    forall k,
      or0 (fold_left
             (fun norm c => set norm (c_key c)
                              (Some (div (c_value c) (Fin s'))))
             (scale_values a cs) n' k)
      == or0 (fold_left
                (fun norm c => set norm (c_key c)
                                 (Some (div (c_value c) (Fin s))))
                cs n k).
Proof.
  intros Hv Hs Es.
  assert (Hs' : ~ s' == 0) by (rewrite Es; intro Z; nra).
  induction cs as [|c cs IH]; intros n n' Hn k; [apply Hn|].
  cbn [scale_values map fold_left c_key c_value].
  apply (IH (fun c' H => Hv c' (or_intror H))).
  intro k'. unfold set. destruct (key_eqb k' (c_key c)); [|apply Hn].
  destruct (Hv c (or_introl eq_refl)) as [q [Eq _]].
  rewrite Eq. cbn [mul lift2 div].
  destruct (Qeq_bool s' 0) eqn:Z'; [apply Qeq_bool_eq in Z'; contradiction|].
  destruct (Qeq_bool s 0) eqn:Z; [apply Qeq_bool_eq in Z; contradiction|].
  cbn [or0]. rewrite Es. field. split; [exact Hs | lra].
Qed.

Lemma all_zero_of_sum (cs : list contribution) :
  nonneg_values cs -> (forall c, In c cs -> valq c <= 0) ->
  all_zero cs = true /\ all_zero (scale_values a cs) = true.
Proof.
  intros Hv Hz. unfold all_zero. split; apply forallb_forall.
  - intros c Hc. destruct (Hv c Hc) as [q [Eq Hq]]. specialize (Hz c Hc).
    unfold valq in Hz. rewrite Eq in Hz. rewrite Eq.
    cbn [zero_value]. apply Qeq_eq_bool. lra.
  - intros c' Hc'. unfold scale_values in Hc'. apply in_map_iff in Hc'.
    destruct Hc' as [c [<- Hc]]. cbn [c_value].
    destruct (Hv c Hc) as [q [Eq Hq]]. specialize (Hz c Hc).
    unfold valq in Hz. rewrite Eq in Hz. rewrite Eq.
    cbn [mul lift2 zero_value]. apply Qeq_eq_bool. nra.
Qed.

End ScaleFacts.

Lemma sqrt_floor_respects : respects_Qeq sqrt_floor.
Proof.
  intros x y H. unfold sqrt_floor. now rewrite (Qfloor_comp _ _ H).
Qed.


(** ** Running without a fault *)

Lemma Forall_skipn_keep {A : Type} (P : A -> Prop) n : forall l : list A,
  Forall P l -> Forall P (skipn n l).
Proof.
  induction n as [|n IH]; intros l H; [exact H|].
  destruct l as [|x l]; [constructor|]. cbn [skipn]. apply IH.
  now inversion H.
Qed.

Lemma filter_none {A : Type} (p : A -> bool) (l : list A) :
  Forall (fun x => p x = false) l -> filter p l = [].
Proof.
  induction 1 as [|x l Hx _ IH]; [reflexivity|].
  cbn [filter]. now rewrite Hx.
Qed.

Section QuietFacts.
Variable rnd : nat -> Q.
Hypothesis rnd_range : unit_range rnd.

Lemma tick_quiet s : quiet s -> quiet (tick rnd s).
Proof.
  intros [Q1 Q2 Q3 Q4].
  assert (F : faultRef (tick_countdown s) = None).
  { rewrite countdown_faultRef, Q1, Q2. reflexivity. }
  assert (Ept : fst (tick_point rnd s)
                = fst (generatePoint rnd (tRef s + 1) None (rngPos s))).
  { now rewrite tick_point_eq, F. }
  split.
  - now rewrite tick_faultRef.
  - rewrite tick_faultCdRef, countdown_faultCdRef, Q2. reflexivity.
  - rewrite tick_alarmLog, Ept, unflagged_no_alarms; [exact Q3| |].
    + intro k. now apply unbiased_unflagged.
    + now apply unbiased_t2_unflagged.
  - rewrite tick_data. unfold slice_last. apply Forall_skipn_keep.
    apply Forall_app. split; [exact Q4|]. constructor; [|constructor].
    rewrite Ept. now apply unbiased_t2_unflagged.
Qed.

Lemma run_quiet es : forall s,
  no_injection es -> quiet s -> quiet (run rnd s es).
Proof.
  induction es as [|e es IH]; intros s Hn Q; [exact Q|].
  cbn [run fold_left]. apply IH.
  - intros f Hf. apply (Hn f). now right.
  - destruct e as [| |f|]; cbn [step].
    + destruct Q. now split.
    + destruct (running s); [now apply tick_quiet | exact Q].
    + elim (Hn f). now left.
    + split; cbn; try reflexivity. constructor.
Qed.

(** Nominal operation: as long as no fault is injected, whatever the
    operator starts, stops or resets, the alarm log stays empty, no
    snapshot of the window is out of control, and the alarm rate shown is
    zero. *)
Theorem quiet_without_injection (es : list event) :
  no_injection es ->
  let s := run rnd initial es in
  alarmLog s = [] /\
  totalAlarms s = 0%nat /\
  Forall (fun p => pt_t2_anomaly p = false) (data s) /\
  isAnomalous s = false /\
  alarmRate s = 0.
Proof.
  intros Hn s.
  assert (Q : quiet s).
  { apply run_quiet; [exact Hn|]. split; cbn; try reflexivity. constructor. }
  destruct Q as [_ _ Q3 Q4].
  split; [exact Q3|]. split; [unfold totalAlarms; now rewrite Q3|].
  split; [exact Q4|]. split.
  - unfold isAnomalous, latest, last_of. destruct (data s) as [|p0 l] eqn:E;
      [reflexivity|].
    destruct (nth_error (p0 :: l) (List.length (p0 :: l) - 1)) as [p|] eqn:N;
      [|reflexivity].
    apply nth_error_In in N. rewrite Forall_forall in Q4. now apply Q4.
  - unfold alarmRate. destruct (data s) as [|p0 l] eqn:E; [reflexivity|].
    rewrite (filter_none _ _ Q4). cbn [List.length Z.of_nat].
    apply (toFixed_comp 1 _ 0). unfold Qdiv. ring.
Qed.
End QuietFacts.

Lemma rnd_half_range : unit_range rnd_half.
Proof. intro n. split; [discriminate | reflexivity]. Qed.

Lemma quiet_without_injection_witness :
  no_injection [Toggle; Timer; Timer; Toggle; Timer; Reset; Toggle; Timer] /\
  alarmLog (run rnd_half initial
              [Toggle; Timer; Timer; Toggle; Timer; Reset; Toggle; Timer])
  = [].
Proof.
  assert (H : no_injection
                [Toggle; Timer; Timer; Toggle; Timer; Reset; Toggle; Timer]).
  { intros f Hf. cbn [In] in Hf.
    repeat (destruct Hf as [Hf | Hf]; [discriminate|]). exact Hf. }
  split; [exact H|].
  exact (proj1 (quiet_without_injection rnd_half rnd_half_range _ H)).
Defined.

(** ** Alarms under a fault *)

(** While a catalog fault biases the snapshot, a tick logs at most two
    events: one for the driver of the fault, if it is flagged, and one
    for the joint statistic, if that is out of control. *)
Theorem alarms_only_for_driver rnd t pos f :
  unit_range rnd ->
  In f FAULT_MODES ->
  let pt := fst (generatePoint rnd t (Some f) pos) in
  newAlarms t pt =
    (if pt_anomaly pt (f_param f) then [param_alarm t pt (f_param f)] else [])
    ++ (if pt_t2_anomaly pt then [t2_alarm t pt] else []) /\
  (List.length (newAlarms t pt) <= 2)%nat.
Proof.
  intros H Hin pt.
  assert (F : filter (pt_anomaly pt) PARAM_KEYS
              = if pt_anomaly pt (f_param f) then [f_param f] else []).
  { pose proof (fun k => non_driver_unflagged rnd t pos f k H) as N.
    fold pt in N. unfold PARAM_KEYS. cbn [filter].
    destruct (f_param f);
      repeat match goal with
             | |- context [pt_anomaly pt ?k] =>
                 rewrite (N k) by discriminate
             end;
      match goal with
      | |- context [pt_anomaly pt ?k] => now destruct (pt_anomaly pt k)
      end. }
  assert (E : newAlarms t pt =
    (if pt_anomaly pt (f_param f) then [param_alarm t pt (f_param f)] else [])
    ++ (if pt_t2_anomaly pt then [t2_alarm t pt] else [])).
  { rewrite newAlarms_eq, F. now destruct (pt_anomaly pt (f_param f)). }
  split; [exact E|]. rewrite E.
  destruct (pt_anomaly pt (f_param f)), (pt_t2_anomaly pt); cbn; lia.
Qed.

Lemma alarms_only_for_driver_witness :
  (List.length
     (newAlarms 1 (fst (generatePoint rnd_half 1 (Some screw_slip) 0)))
   <= 2)%nat.
Proof.
  assert (Hin : In screw_slip FAULT_MODES) by (right; left; reflexivity).
  exact (proj2 (alarms_only_for_driver rnd_half 1 0 screw_slip
                  rnd_half_range Hin)).
Defined.

(** ** Direction labels *)

Lemma zq_sign p k v :
  pt_val p k = Some v ->
  (0 < zq p k <-> mean (PARAMS k) < v) /\
  (v <= mean (PARAMS k) - (17 # 10) * std (PARAMS k) -> zq p k <= - (17 # 10)) /\
  (mean (PARAMS k) + (17 # 10) * std (PARAMS k) <= v -> 17 # 10 <= zq p k).
Proof.
  intro E. unfold zq. rewrite E.
  set (z := (v - mean (PARAMS k)) / std (PARAMS k)).
  assert (Ez : z * std (PARAMS k) == v - mean (PARAMS k)).
  { unfold z. field. destruct k; discriminate. }
  clearbody z.
  destruct k; cbn [PARAMS mean std] in *; repeat split; intros; lra.
Qed.

(** The direction label of an entry is HIGH exactly when the reading is
    present and above its mean; a reading at the mean, below it, or
    missing is labelled LOW. *)
Theorem direction_follows_reading (p : point) (k : key) :
  c_direction (contribution_of p k) = DirHigh <->
  exists v, pt_val p k = Some v /\ mean (PARAMS k) < v.
Proof.
  unfold contribution_of. cbn [c_direction].
  destruct (pt_val p k) as [v|] eqn:E.
  - assert (Hk : pt_val p k <> None) by (rewrite E; discriminate).
    rewrite (zscore_complete p k Hk). cbn [gtb].
    destruct (zq_sign p k v E) as [S _].
    destruct (Qltb 0 (zq p k)) eqn:L.
    + apply Qltb_lt in L. split; [|reflexivity].
      intros _. exists v. split; [reflexivity | now apply S].
    + split; [discriminate|]. intros [v' [[= <-] Hv]].
      apply S in Hv. apply Qltb_lt in Hv. congruence.
  - rewrite (zscore_missing p k E). cbn [gtb]. split; [discriminate|].
    intros [v [Hv _]]. discriminate.
Qed.

(** Under a catalog fault the entry of the driver carries the direction
    of the fault: HIGH with a stored z of at least 1.7 when [delta] is
    positive, LOW with a stored z of at most -1.7 when it is negative. *)
Theorem driver_direction rnd t pos f :
  unit_range rnd ->
  In f FAULT_MODES ->
  let pt := fst (generatePoint rnd t (Some f) pos) in
  exists c z,
    In c (computeContributions pt) /\
    c_key c = f_param f /\
    c_z c = Fin z /\
    ((0 < f_delta f /\ c_direction c = DirHigh /\ 17 # 10 <= z) \/
     (f_delta f < 0 /\ c_direction c = DirLow /\ z <= - (17 # 10))).
Proof.
  intros H Hin pt. set (k := f_param f).
  exists (contribution_of pt k), (toFixed 3 (zq pt k)).
  split; [apply contribution_listed|]. split; [reflexivity|].
  assert (Hc : complete pt) by apply generatePoint_complete.
  destruct (generatePoint_fields rnd t (Some f) pos k) as [Ev _].
  fold pt in Ev.
  destruct (zq_sign pt k _ Ev) as [S0 [S1 S2]].
  destruct (stored_driver_far k (raw_reading rnd (Some f) pos k)) as [G1 G2].
  unfold contribution_of. cbn [c_z c_direction].
  rewrite (zscore_complete pt k (Hc k)). cbn [fixed gtb].
  split; [reflexivity|].
  destruct (raw_driver_far rnd f pos H Hin) as [[Hd R] | [Hd R]]; fold k in R.
  - right. split; [exact Hd|].
    assert (Z : zq pt k <= - (17 # 10)) by (apply S1, G1, R).
    split.
    + destruct (Qltb 0 (zq pt k)) eqn:L; [|reflexivity].
      apply Qltb_lt in L. lra.
    + assert (E : - (17 # 10) == (-1700) # pow10 3) by reflexivity.
      rewrite E. apply toFixed_below_grid. rewrite <- E. exact Z.
  - left. split; [exact Hd|].
    assert (Z : 17 # 10 <= zq pt k) by (apply S2, G2, R).
    split.
    + assert (L : Qltb 0 (zq pt k) = true) by (apply Qltb_lt; lra).
      now rewrite L.
    + assert (E : 17 # 10 == 1700 # pow10 3) by reflexivity.
      rewrite E. apply toFixed_above_grid. rewrite <- E. exact Z.
Qed.

Lemma driver_direction_witness :
  exists c z,
    In c (computeContributions
            (fst (generatePoint rnd_half 1 (Some temp_spike) 0))) /\
    c_key c = barrel_temp /\ c_z c = Fin z /\ 17 # 10 <= z.
Proof.
  assert (Hin : In temp_spike FAULT_MODES) by (do 2 right; left; reflexivity).
  destruct (driver_direction rnd_half 1 0 temp_spike rnd_half_range Hin)
    as [c [z [H1 [H2 [H3 [[_ [_ H4]] | [Hd _]]]]]]].
  - exists c, z. tauto.
  - discriminate Hd.
Defined.

(** ** Rounding twice *)

Lemma toFixed_on_grid k x :
  (exists z, toFixed k x = Qred z) /\
  (Qle_bool (inject_Z (10 ^ 21)) (Qabs x) = true /\ toFixed k x = Qred x
   \/ exists m : Z, toFixed k x == m # pow10 k).
Proof.
  unfold toFixed. destruct (Qle_bool _ (Qabs x)) eqn:B.
  - split; [now eexists | left; now split].
  - split; [now eexists|]. right. eexists. apply Qred_correct.
Qed.

Lemma toFixed_idempotent k x : toFixed k (toFixed k x) = toFixed k x.
Proof.
  destruct (toFixed_on_grid k x) as [_ [[B E] | [m E]]].
  - rewrite E. unfold toFixed at 1.
    assert (Ea : Qabs (Qred x) == Qabs x) by now rewrite Qred_correct.
    rewrite (Qleb_comp _ _ (Qeq_refl _) _ _ Ea), B.
    apply Qred_complete, Qred_correct.
  - destruct (toFixed_on_grid k (toFixed k x)) as [[z Ez] _].
    destruct (toFixed_on_grid k x) as [[z' Ez'] _].
    assert (Q : toFixed k (toFixed k x) == toFixed k x).
    { apply Qle_antisym.
      - rewrite E at 2. apply toFixed_below_grid. rewrite E. apply Qle_refl.
      - rewrite E at 1. apply toFixed_above_grid. rewrite E. apply Qle_refl. }
    rewrite Ez, Ez' in Q. rewrite Ez, Ez'.
    apply Qred_complete. now rewrite !Qred_correct in Q.
Qed.

(** ** What an alarm line shows *)

(** The alarm line of a parameter carries the tick, the label and the
    unit of the parameter, and the stored reading rounded for display:
    to three decimals for the wall thickness, which leaves the stored
    reading as it is, and to one decimal otherwise, within 0.05 of it. *)
Theorem alarm_shows_reading rnd t activeFault pos k :
  let pt := fst (generatePoint rnd t activeFault pos) in
  let a := param_alarm t pt k in
  a_t a = t /\ a_id a = (t, Some k) /\
  a_param a = label (PARAMS k) /\ a_unit a = unit (PARAMS k) /\
  exists v shown,
    pt_val pt k = Some v /\ a_val a = Fin shown /\
    Qabs (shown - v) <= 1 # 20 /\
    (k = wall_thickness -> shown = v).
Proof.
  intros pt a.
  destruct (generatePoint_fields rnd t activeFault pos k) as [Ev _].
  fold pt in Ev. unfold a, param_alarm, fmt. rewrite Ev.
  cbn [a_t a_id a_param a_unit a_val].
  repeat split.
  eexists _, _. split; [reflexivity|]. split; [reflexivity|]. split.
  - destruct (String.eqb (unit (PARAMS k)) "mm").
    + eapply Qle_trans; [apply toFixed_err | discriminate].
    + apply (toFixed_err 1).
  - intros ->. cbn. apply toFixed_idempotent.
Qed.

(** ** Snapshots of reachable states *)

Lemma t2q_nonneg p : 0 <= t2q p.
Proof.
  unfold t2q. cbn [fold_left PARAM_KEYS]. unfold sq.
  assert (S : forall k, 0 <= zq p k * zq p k) by (intro k; nra).
  pose proof (S barrel_temp). pose proof (S screw_speed).
  pose proof (S melt_pressure). pose proof (S line_speed).
  pose proof (S die_pressure). pose proof (S wall_thickness). lra.
Qed.

Lemma generated_well_formed rnd t activeFault pos :
  well_formed (fst (generatePoint rnd t activeFault pos)).
Proof.
  set (pt := fst (generatePoint rnd t activeFault pos)).
  assert (Hc : complete pt) by apply generatePoint_complete.
  split; [exact Hc|]. split.
  - destruct (generatePoint_t2 rnd t activeFault pos) as [E _].
    fold pt in E. rewrite (t2_full_complete pt Hc) in E.
    eexists. split; [exact E|]. apply toFixed_nonneg, t2q_nonneg.
  - destruct (contributions_sum pt Hc) as [s [E1 E2]].
    exists s. split; [exact E1|]. rewrite E2.
    cbn [qsum map fold_right PARAM_KEYS].
    assert (N : forall k, 0 <= toFixed 4 (sq pt k)).
    { intro k. apply toFixed_nonneg. unfold sq. nra. }
    pose proof (N barrel_temp). pose proof (N screw_speed).
    pose proof (N melt_pressure). pose proof (N line_speed).
    pose proof (N die_pressure). pose proof (N wall_thickness). lra.
Qed.

Lemma run_well_formed rnd es : forall s,
  Forall well_formed (data s) ->
  Forall well_formed (data (run rnd s es)).
Proof.
  induction es as [|e es IH]; intros s H; [exact H|].
  cbn [run fold_left]. apply IH. destruct e; cbn [step]; try exact H.
  - destruct (running s); [|exact H]. rewrite tick_data.
    unfold slice_last. apply Forall_skipn_keep, Forall_app.
    split; [exact H|]. constructor; [|constructor].
    rewrite tick_point_eq. apply generated_well_formed.
  - now destruct (running s).
  - constructor.
Qed.

(** No NaN in operation: every snapshot in the window of a reachable
    state, the latest one included, has all its readings, a joint
    statistic that is a number and not negative, and contributions that
    sum to a number. *)
Theorem reachable_snapshots_well_formed rnd (es : list event) :
  let s := run rnd initial es in
  Forall well_formed (data s) /\
  match latest s with
  | Some p => well_formed p
  | None => data s = []
  end.
Proof.
  intro s.
  assert (H : Forall well_formed (data s))
    by (apply run_well_formed; constructor).
  split; [exact H|]. unfold latest, last_of.
  destruct (data s) as [|p0 l] eqn:E; [reflexivity|].
  destruct (nth_error (p0 :: l) (List.length (p0 :: l) - 1)) as [p|] eqn:N.
  - apply nth_error_In in N. rewrite Forall_forall in H. now apply H.
  - apply nth_error_None in N. cbn in N. lia.
Qed.
